(** * wn-pybridge: [pybridge_helpers.morphy_to_json]

    A shallow embedding of

<<
    import json

    def morphy_to_json(morphy, form, pos=None):
        result = morphy(form, pos)
        return json.dumps({k if k is not None else 'null': list(v)
                           for k, v in result.items()})
>>

    together with the pieces of the Python run time the two lines rely on:
    [str] as a sequence of code points, insertion-ordered [dict]s, the dict
    comprehension, [list(v)], and the standard library's [json.dumps] and
    [json.loads] (CPython's [json.encoder] and [json.decoder]) at the type the
    helper uses them. *)

From Stdlib Require Import List String Ascii NArith Lia Bool Arith.
Import ListNotations.

Set Implicit Arguments.

(** ** Python strings and text *)

(** A Python [str] is a sequence of code points; every code point of a real
    [str] is below [0x110000] ([valid_str]). *)
Definition codepoint := N.
Definition pystr := list codepoint.

(** Output text of [json.dumps] with [ensure_ascii=True]: ASCII characters. *)
Definition text := list ascii.

Definition str_of_text (t : text) : pystr := map N_of_ascii t.

(** A [str] literal of ASCII characters. *)
Definition lit (s : string) : pystr := str_of_text (list_ascii_of_string s).

Definition valid_str (s : pystr) : Prop := Forall (fun c => (c < 0x110000)%N) s.

Definition dquote : ascii := "034"%char.
Definition backslash : ascii := "\"%char.

Definition is_high_surrogate (c : codepoint) : bool :=
  ((0xd800 <=? c) && (c <=? 0xdbff))%N.
Definition is_low_surrogate (c : codepoint) : bool :=
  ((0xdc00 <=? c) && (c <=? 0xdfff))%N.

(** ** [json.encoder]: [py_encode_basestring_ascii] *)

Module Encoder.
Local Open Scope N_scope.

Definition hexdigit (d : N) : ascii :=
  nth (N.to_nat d) (list_ascii_of_string "0123456789abcdef") "0"%char.

(** ['{0:04x}'.format(n)], called by the encoder with [n < 0x10000] only,
    where it yields exactly four lower-case digits. *)
Definition format_04x (n : N) : text :=
  [hexdigit (n / 4096 mod 16); hexdigit (n / 256 mod 16);
   hexdigit (n / 16 mod 16); hexdigit (n mod 16)].

Definition u_escape (n : N) : text :=
  backslash :: "u"%char :: format_04x n.

(** The pattern [ESCAPE_ASCII]: a backslash, a double quote, or any
    character outside the range from space to tilde. *)
Definition ESCAPE_ASCII (c : codepoint) : bool :=
  (c =? 92) || (c =? 34) || negb ((32 <=? c) && (c <=? 126)).

(** [ESCAPE_DCT], with the entries [setdefault] adds for [range(0x20)]. *)
Definition ESCAPE_DCT (c : codepoint) : option text :=
  if c =? 92 then Some [backslash; backslash]
  else if c =? 34 then Some [backslash; dquote]
  else if c =? 8 then Some [backslash; "b"%char]
  else if c =? 12 then Some [backslash; "f"%char]
  else if c =? 10 then Some [backslash; "n"%char]
  else if c =? 13 then Some [backslash; "r"%char]
  else if c =? 9 then Some [backslash; "t"%char]
  else if c <? 0x20 then Some (u_escape c)
  else None.

(** The surrogate pair the encoder writes for a code point above the BMP. *)
Definition surrogate1 (c : codepoint) : N :=
  N.lor 0xd800 (N.land (N.shiftr (c - 0x10000) 10) 0x3ff).
Definition surrogate2 (c : codepoint) : N :=
  N.lor 0xdc00 (N.land (c - 0x10000) 0x3ff).

(** The local function [replace]. *)
Definition replace (c : codepoint) : text :=
  match ESCAPE_DCT c with
  | Some t => t
  | None =>
      if c <? 0x10000 then u_escape c
      else u_escape (surrogate1 c) ++ u_escape (surrogate2 c)
  end.

(** What [ESCAPE_ASCII.sub(replace, s)] puts for one character. *)
Definition sub_char (c : codepoint) : text :=
  if ESCAPE_ASCII c then replace c else [ascii_of_N c].

Definition escape (s : pystr) : text := flat_map sub_char s.

Definition py_encode_basestring_ascii (s : pystr) : text :=
  dquote :: escape s ++ [dquote].

(** [sep.join(parts)]. *)
Fixpoint join (sep : text) (parts : list text) : text :=
  match parts with
  | [] => []
  | [p] => p
  | p :: ps => p ++ sep ++ join sep ps
  end.

Definition item_separator : text := list_ascii_of_string ", ".
Definition key_separator : text := list_ascii_of_string ": ".

(** A list of [str]: ['[]'] when empty, else the items between brackets. *)
Definition encode_list (l : list pystr) : text :=
  "["%char :: join item_separator (map py_encode_basestring_ascii l)
    ++ ["]"%char].

Definition encode_item (kv : pystr * list pystr) : text :=
  py_encode_basestring_ascii (fst kv) ++ key_separator ++ encode_list (snd kv).

(** A dict from [str] to lists of [str], in the dict's own order. *)
Definition encode_dict (d : list (pystr * list pystr)) : text :=
  "{"%char :: join item_separator (map encode_item d) ++ ["}"%char].
End Encoder.

(** [json.dumps(obj)] with its default arguments, for the objects the helper
    passes to it. *)
Definition json_dumps (d : list (pystr * list pystr)) : string :=
  string_of_list_ascii (Encoder.encode_dict d).


(** ** Python dicts

    A [dict] keeps its keys unique and in insertion order; assigning to a key
    that is already there replaces the value and leaves the key where it
    is. *)

Section Dict.
Variables K V : Type.
Variable K_eq_dec : forall x y : K, {x = y} + {x <> y}.

Definition dict := list (K * V).

Definition keys (d : dict) : list K := map fst d.

(** The invariant of every dict object. *)
Definition dict_wf (d : dict) : Prop := NoDup (keys d).

(** [d[k] = v]. *)
Fixpoint dict_set (d : dict) (k : K) (v : V) : dict :=
  match d with
  | [] => [(k, v)]
  | (k', v') :: r =>
      if K_eq_dec k' k then (k', v) :: r else (k', v') :: dict_set r k v
  end.

(** [d.get(k)]. *)
Fixpoint dict_get (d : dict) (k : K) : option V :=
  match d with
  | [] => None
  | (k', v') :: r => if K_eq_dec k' k then Some v' else dict_get r k
  end.

(** [d.items()]: the entries, in the dict's order. *)
Definition dict_items (d : dict) : list (K * V) := d.

(** [dict(pairs)]: the pairs are assigned one after the other. *)
Definition dict_of_pairs (pairs : list (K * V)) : dict :=
  fold_left (fun d kv => dict_set d (fst kv) (snd kv)) pairs [].
End Dict.

Definition pystr_eq_dec : forall x y : pystr, {x = y} + {x <> y} :=
  list_eq_dec N.eq_dec.

(** ** [json.decoder] and [json.scanner] *)

(** The objects [json.loads] builds.  A number is kept as the text matched by
    [NUMBER_RE] (or one of the constants NaN, Infinity, -Infinity). *)
#[local] Unset Elimination Schemes.
Inductive pyval : Type :=
| PNone
| PBool (b : bool)
| PNum (lexeme : text)
| PStr (s : pystr)
| PList (items : list pyval)
| PDict (entries : list (pystr * pyval)).
#[local] Set Elimination Schemes.

Module Decoder.
Local Open Scope N_scope.

Definition parsed (A : Type) := option (A * text).

(** [WHITESPACE_STR]: space, tab, newline, carriage return. *)
Definition is_ws (c : ascii) : bool :=
  Ascii.eqb c " "%char || Ascii.eqb c "009"%char || Ascii.eqb c "010"%char
  || Ascii.eqb c "013"%char.

(** [WHITESPACE.match(s, end).end()]. *)
Fixpoint skip_ws (s : text) : text :=
  match s with
  | c :: r => if is_ws c then skip_ws r else s
  | [] => []
  end.

Definition unhex (c : ascii) : option N :=
  let n := N_of_ascii c in
  if (48 <=? n) && (n <=? 57) then Some (n - 48)
  else if (97 <=? n) && (n <=? 102) then Some (n - 87)
  else if (65 <=? n) && (n <=? 70) then Some (n - 55)
  else None.

(** [_decode_uXXXX]: the four characters after the [u], all of them
    hexadecimal digits, read in base 16. *)
Definition decode_uXXXX (h1 h2 h3 h4 : ascii) : option N :=
  match unhex h1, unhex h2, unhex h3, unhex h4 with
  | Some a, Some b, Some c, Some d => Some (((a * 16 + b) * 16 + c) * 16 + d)
  | _, _, _, _ => None
  end.

(** The table [BACKSLASH]. *)
Definition BACKSLASH (esc : ascii) : option codepoint :=
  if Ascii.eqb esc dquote then Some 34
  else if Ascii.eqb esc backslash then Some 92
  else if Ascii.eqb esc "/"%char then Some 47
  else if Ascii.eqb esc "b"%char then Some 8
  else if Ascii.eqb esc "f"%char then Some 12
  else if Ascii.eqb esc "n"%char then Some 10
  else if Ascii.eqb esc "r"%char then Some 13
  else if Ascii.eqb esc "t"%char then Some 9
  else None.

Definition join_surrogates (uni uni2 : N) : codepoint :=
  0x10000 + N.lor (N.shiftl (uni - 0xd800) 10) (uni2 - 0xdc00).

Definition push (c : codepoint) (p : parsed pystr) : parsed pystr :=
  match p with
  | Some (str, rest) => Some (c :: str, rest)
  | None => None
  end.

(** [py_scanstring(s, end, strict=True)], [s] starting just after the
    opening quote; the result is the string and what follows its closing
    quote. *)
Fixpoint scanstring (s : text) : parsed pystr :=
  match s with
  | [] => None
  | c :: r =>
      if Ascii.eqb c dquote then Some ([], r)
      else if Ascii.eqb c backslash then
        match r with
        | [] => None
        | esc :: r1 =>
            if Ascii.eqb esc "u"%char then
              match r1 with
              | h1 :: h2 :: h3 :: h4 :: r2 =>
                  match decode_uXXXX h1 h2 h3 h4 with
                  | None => None
                  | Some uni =>
                      if is_high_surrogate uni then
                        match r2 with
                        | b :: u :: r3 =>
                            if Ascii.eqb b backslash
                               && Ascii.eqb u "u"%char then
                              match r3 with
                              | l1 :: l2 :: l3 :: l4 :: r4 =>
                                  match decode_uXXXX l1 l2 l3 l4 with
                                  | None => None
                                  | Some uni2 =>
                                      if is_low_surrogate uni2
                                      then push (join_surrogates uni uni2)
                                                (scanstring r4)
                                      else push uni (scanstring r2)
                                  end
                              | _ => None
                              end
                            else push uni (scanstring r2)
                        | _ => push uni (scanstring r2)
                        end
                      else push uni (scanstring r2)
                  end
              | _ => None
              end
            else
              match BACKSLASH esc with
              | Some ch => push ch (scanstring r1)
              | None => None
              end
        end
      else if N_of_ascii c <? 0x20 then None
      else push (N_of_ascii c) (scanstring r)
  end.

(** [NUMBER_RE]: an integer part, then an optional fraction and an optional
    exponent, each taken only when complete. *)
Definition is_digit (c : ascii) : bool :=
  (48 <=? N_of_ascii c) && (N_of_ascii c <=? 57).

Fixpoint span_digits (s : text) : text * text :=
  match s with
  | c :: r =>
      if is_digit c then let (ds, r') := span_digits r in (c :: ds, r')
      else ([], s)
  | [] => ([], [])
  end.

Definition match_int (s : text) : parsed text :=
  let (sign, r) :=
    match s with
    | c :: r => if Ascii.eqb c "-"%char then ([c], r) else ([], s)
    | [] => ([], s)
    end in
  match r with
  | c :: r' =>
      if Ascii.eqb c "0"%char then Some (sign ++ [c], r')
      else if is_digit c then
        let (ds, r'') := span_digits r' in Some (sign ++ c :: ds, r'')
      else None
  | [] => None
  end.

Definition match_frac (s : text) : text * text :=
  match s with
  | c :: r =>
      if Ascii.eqb c "."%char then
        match span_digits r with
        | ([], _) => ([], s)
        | (ds, r') => (c :: ds, r')
        end
      else ([], s)
  | [] => ([], s)
  end.

Definition match_exp (s : text) : text * text :=
  match s with
  | e :: r =>
      if Ascii.eqb e "e"%char || Ascii.eqb e "E"%char then
        let (sign, r1) :=
          match r with
          | c :: r1 =>
              if Ascii.eqb c "-"%char || Ascii.eqb c "+"%char then ([c], r1)
              else ([], r)
          | [] => ([], r)
          end in
        match span_digits r1 with
        | ([], _) => ([], s)
        | (ds, r2) => (e :: sign ++ ds, r2)
        end
      else ([], s)
  | [] => ([], s)
  end.

Definition match_number (s : text) : parsed text :=
  match match_int s with
  | None => None
  | Some (i, r) =>
      let (f, r1) := match_frac r in
      let (e, r2) := match_exp r1 in
      Some (i ++ f ++ e, r2)
  end.

(** [s[idx:idx + len(word)] == word], with what follows. *)
Fixpoint strip_prefix (word s : text) : option text :=
  match word, s with
  | [], _ => Some s
  | w :: word', c :: s' =>
      if Ascii.eqb w c then strip_prefix word' s' else None
  | _ :: _, [] => None
  end.

Definition constant (word : string) (v : pyval) (s : text)
  : parsed pyval :=
  match strip_prefix (list_ascii_of_string word) s with
  | Some rest => Some (v, rest)
  | None => None
  end.

Section Containers.
(** [JSONObject] and [JSONArray] receive [scan_once] as an argument. *)
Variable scan_once : text -> parsed pyval.

(** The [while True] loop of [JSONObject]; [s] starts just after the
    opening quote of the next key.  The loop runs at most [fuel]
    times. *)
Fixpoint object_loop (fuel : nat) (pairs : list (pystr * pyval))
         (s : text) : parsed pyval :=
  match fuel with
  | O => None
  | S fuel' =>
      match scanstring s with
      | None => None
      | Some (key, s1) =>
          match skip_ws s1 with
          | c :: s2 =>
              if Ascii.eqb c ":"%char then
                match scan_once (skip_ws s2) with
                | None => None
                | Some (value, s3) =>
                    let pairs := pairs ++ [(key, value)] in
                    match skip_ws s3 with
                    | c' :: s4 =>
                        if Ascii.eqb c' "}"%char then
                          Some (PDict (dict_of_pairs pystr_eq_dec pairs),
                                s4)
                        else if Ascii.eqb c' ","%char then
                          match skip_ws s4 with
                          | q :: s5 =>
                              if Ascii.eqb q dquote
                              then object_loop fuel' pairs s5
                              else None
                          | [] => None
                          end
                        else None
                    | [] => None
                    end
                end
              else None
          | [] => None
          end
      end
  end.

(** [JSONObject], [s] starting just after the opening brace. *)
Definition JSONObject (fuel : nat) (s : text) : parsed pyval :=
  match skip_ws s with
  | c :: r =>
      if Ascii.eqb c "}"%char then Some (PDict [], r)
      else if Ascii.eqb c dquote then object_loop fuel [] r
      else None
  | [] => None
  end.

(** The loop of [JSONArray]; [s] starts at the next value. *)
Fixpoint array_loop (fuel : nat) (values : list pyval) (s : text)
  : parsed pyval :=
  match fuel with
  | O => None
  | S fuel' =>
      match scan_once s with
      | None => None
      | Some (value, s1) =>
          let values := values ++ [value] in
          match skip_ws s1 with
          | c :: s2 =>
              if Ascii.eqb c "]"%char then Some (PList values, s2)
              else if Ascii.eqb c ","%char then
                array_loop fuel' values (skip_ws s2)
              else None
          | [] => None
          end
      end
  end.

(** [JSONArray], [s] starting just after the opening bracket. *)
Definition JSONArray (fuel : nat) (s : text) : parsed pyval :=
  match skip_ws s with
  | c :: r =>
      if Ascii.eqb c "]"%char then Some (PList [], r)
      else array_loop fuel [] (c :: r)
  | [] => None
  end.
End Containers.

(** [_scan_once] of [py_make_scanner]; [fuel] bounds the nesting depth and
    the number of items of a container. *)
Fixpoint scan_once (fuel : nat) (s : text) : parsed pyval :=
  match fuel with
  | O => None
  | S fuel' =>
      match s with
      | [] => None
      | c :: r =>
          if Ascii.eqb c dquote then
            match scanstring r with
            | Some (str, rest) => Some (PStr str, rest)
            | None => None
            end
          else if Ascii.eqb c "{"%char
          then JSONObject (scan_once fuel') fuel' r
          else if Ascii.eqb c "["%char
          then JSONArray (scan_once fuel') fuel' r
          else
            match constant "null" PNone s with
            | Some p => Some p
            | None =>
            match constant "true" (PBool true) s with
            | Some p => Some p
            | None =>
            match constant "false" (PBool false) s with
            | Some p => Some p
            | None =>
            match match_number s with
            | Some (lexeme, rest) => Some (PNum lexeme, rest)
            | None =>
            match constant "NaN" (PNum (list_ascii_of_string "NaN")) s with
            | Some p => Some p
            | None =>
            match constant "Infinity"
                           (PNum (list_ascii_of_string "Infinity")) s with
            | Some p => Some p
            | None =>
                constant "-Infinity"
                         (PNum (list_ascii_of_string "-Infinity")) s
            end end end end end end
      end
  end.

(** [JSONDecoder.decode]: leading whitespace, one value, trailing
    whitespace, and nothing else.  No text needs more fuel than it has
    characters. *)
Definition decode (s : text) : option pyval :=
  match scan_once (S (List.length s)) (skip_ws s) with
  | Some (obj, rest) =>
      match skip_ws rest with
      | [] => Some obj
      | _ :: _ => None
      end
  | None => None
  end.
End Decoder.

(** [json.loads(s)] with its default arguments; [None] stands for a raised
    [JSONDecodeError]. *)
Definition json_loads (s : string) : option pyval :=
  Decoder.decode (list_ascii_of_string s).

(** ** Calls, exceptions and the outside world *)

(** A call either returns a value or raises. *)
Inductive outcome (E A : Type) : Type :=
| Returns (a : A)
| Raises (e : E).
Arguments Returns {E A} a.
Arguments Raises {E A} e.

(** A computation that may read and change the world [W] (whatever state the
    lookup keeps: caches, an open lexicon, counters) and may raise an
    exception of [E]. *)
Definition M (W E A : Type) : Type := W -> outcome E A * W.

Definition ret {W E A} (a : A) : M W E A := fun w => (Returns a, w).

Definition bind {W E A B} (m : M W E A) (k : A -> M W E B) : M W E B :=
  fun w =>
    match m w with
    | (Returns a, w') => k a w'
    | (Raises e, w') => (Raises e, w')
    end.

Notation "x <- m ;; k" := (bind m (fun x => k))
  (at level 61, m at next level, right associativity).

(** An argument with a default value may be left out by the caller. *)
Inductive argument (A : Type) : Type :=
| Omitted
| Passed (a : A).
Arguments Omitted {A}.
Arguments Passed {A} a.

Definition with_default {A} (default : A) (arg : argument A) : A :=
  match arg with
  | Omitted => default
  | Passed a => a
  end.

(** ** The lookup's result *)

(** The collections a lookup hands out as values, each with the order in
    which iterating over it yields its members. *)
Inductive collection : Type :=
| PySet (iteration_order : list pystr)
| PyList (elements : list pystr)
| PyTuple (elements : list pystr).

(** [list(v)]: a new list of the members of [v], in iteration order. *)
Definition py_list (v : collection) : list pystr :=
  match v with
  | PySet l => l
  | PyList l => l
  | PyTuple l => l
  end.

(** A key of the lookup's result: [None] or a part of speech. *)
Definition pos_key := option pystr.

Definition pos_key_eq_dec : forall x y : pos_key, {x = y} + {x <> y}.
Proof. decide equality. apply pystr_eq_dec. Defined.

(** The mapping returned by the lookup. *)
Definition lookup_result := dict pos_key collection.

(** The external lookup capability, [morphy(form, pos)]. *)
Definition lookup (W E : Type) : Type :=
  pystr -> option pystr -> M W E lookup_result.

(** ** [morphy_to_json] *)

(** [k if k is not None else 'null']. *)
Definition key_expr (k : pos_key) : pystr :=
  match k with
  | Some s => s
  | None => lit "null"
  end.

(** [{key_expr(k): list(v) for k, v in items}]: starting from an empty dict,
    one assignment per item. *)
Definition dict_comprehension (items : list (pos_key * collection))
  : dict pystr (list pystr) :=
  fold_left (fun d kv => dict_set pystr_eq_dec d (key_expr (fst kv))
                                  (py_list (snd kv)))
            items [].

Definition morphy_to_json {W E} (morphy : lookup W E) (form : pystr)
           (pos : argument (option pystr)) : M W E string :=
  let pos := with_default None pos in
  result <- morphy form pos ;;
  ret (json_dumps (dict_comprehension (dict_items result))).

(** ** Vocabulary of the properties *)

(** The text [s] between double quotes. *)
Definition quoted (s : string) : string :=
  String dquote (s ++ String dquote EmptyString).

(** The object [json.loads] builds for a dict from [str] to lists of
    [str]. *)
Definition as_pyval (d : dict pystr (list pystr)) : pyval :=
  PDict (map (fun kv => (fst kv, PList (map PStr (snd kv)))) d).

(** An object whose values are all arrays of strings. *)
Definition is_str_array (v : pyval) : Prop :=
  exists l : list pystr, v = PList (map PStr l).

Definition object_of_str_arrays (v : pyval) : Prop :=
  exists entries : list (pystr * pyval),
    v = PDict entries /\ Forall (fun kv => is_str_array (snd kv)) entries.

(** What the decoder reads back from the encoder's rendering of a [str]: a
    code point above the BMP travels as a surrogate pair and is joined again,
    and so are a high and a low surrogate that stand next to each other as
    two code points of the original. *)
Fixpoint read_back (s : pystr) : pystr :=
  match s with
  | [] => []
  | c :: t =>
      if (0x10000 <=? c)%N then
        Decoder.join_surrogates (Encoder.surrogate1 c) (Encoder.surrogate2 c)
          :: read_back t
      else if is_high_surrogate c then
        match t with
        | d :: t' =>
            if is_low_surrogate d
            then Decoder.join_surrogates c d :: read_back t'
            else c :: read_back t
        | [] => [c]
        end
      else c :: read_back t
  end.

(** No high surrogate is directly followed by a low surrogate. *)
Fixpoint no_surrogate_pair (s : pystr) : bool :=
  match s with
  | [] => true
  | c :: t =>
      negb (is_high_surrogate c
            && match t with d :: _ => is_low_surrogate d | [] => false end)
      && no_surrogate_pair t
  end.

(** What [json.loads] makes of an encoded list of [str] and of an encoded
    item of a dict. *)
Definition back_list (l : list pystr) : pyval :=
  PList (map PStr (map read_back l)).

Definition back_item (kv : pystr * list pystr) : pystr * pyval :=
  (read_back (fst kv), back_list (snd kv)).

(** A [str] that [json] reads back as it was written. *)
Definition plain_str (s : pystr) : Prop :=
  valid_str s /\ no_surrogate_pair s = true.

(** A lookup result all of whose strings are plain. *)
Definition plain_result (result : lookup_result) : Prop :=
  Forall (fun kv => plain_str (key_expr (fst kv))
                    /\ Forall plain_str (py_list (snd kv))) result.

(** The result holds both the key [None] and the key ['null']. *)
Definition has_null_collision (result : lookup_result) : Prop :=
  In None (keys result) /\ In (Some (lit "null")) (keys result).

(** The outcome of a call, with a function applied to the returned value. *)
Definition outcome_map {E A B} (f : A -> B) (o : outcome E A) : outcome E B :=
  match o with
  | Returns a => Returns (f a)
  | Raises e => Raises e
  end.

(** Two answers with the same keys in the same order and, key by key, the
    same members in the same iteration order. *)
Definition same_iteration (r1 r2 : lookup_result) : Prop :=
  keys r1 = keys r2
  /\ map (fun kv => py_list (snd kv)) r1 = map (fun kv => py_list (snd kv)) r2.

Definition same_outcome {E} (o1 o2 : outcome E lookup_result) : Prop :=
  match o1, o2 with
  | Returns r1, Returns r2 => same_iteration r1 r2
  | Raises e1, Raises e2 => e1 = e2
  | _, _ => False
  end.

(** A lookup whose outcome is fixed by its arguments, iteration order
    included. *)
Definition deterministic_in_order {W E} (morphy : lookup W E) : Prop :=
  forall form pos w1 w2,
    same_outcome (fst (morphy form pos w1)) (fst (morphy form pos w2)).

(** [v1 == v2] on collections: two sets are equal when they have the same
    members, two lists or two tuples when they have the same members in the
    same order. *)
Definition pystr_eqb (a b : pystr) : bool :=
  if pystr_eq_dec a b then true else false.

Definition subset (a b : list pystr) : bool :=
  forallb (fun x => existsb (pystr_eqb x) b) a.

Definition sequence_eqb (a b : list pystr) : bool :=
  if list_eq_dec pystr_eq_dec a b then true else false.

Definition collection_eqb (v1 v2 : collection) : bool :=
  match v1, v2 with
  | PySet a, PySet b => subset a b && subset b a
  | PyList a, PyList b => sequence_eqb a b
  | PyTuple a, PyTuple b => sequence_eqb a b
  | _, _ => false
  end.

(** [r1 == r2] on dicts: as many entries, and each key of the one is a key
    of the other with an equal value. *)
Definition result_eqb (r1 r2 : lookup_result) : bool :=
  Nat.eqb (List.length r1) (List.length r2)
  && forallb (fun kv => match dict_get pos_key_eq_dec r2 (fst kv) with
                        | Some v2 => collection_eqb (snd kv) v2
                        | None => false
                        end) r1.

(** A lookup whose answer is fixed by its arguments as a Python value. *)
Definition deterministic_value {W E} (morphy : lookup W E) : Prop :=
  forall form pos w1 w2,
    match fst (morphy form pos w1), fst (morphy form pos w2) with
    | Returns r1, Returns r2 => result_eqb r1 r2 = true
    | Raises e1, Raises e2 => e1 = e2
    | _, _ => False
    end.

(** A call of the lookup: the form and the part of speech it was given. *)
Definition call := (pystr * option pystr)%type.

(** A lookup instrumented to record each call it receives. *)
Definition logged {W E} (morphy : lookup W E) : lookup (W * list call) E :=
  fun form pos s =>
    let (o, w') := morphy form pos (fst s) in
    (o, (w', snd s ++ [(form, pos)])).

(** ** The lookup's result as shared objects

    The dict a lookup returns and the objects it holds as values are objects
    the lookup may keep and hand out again.  Here they live in a store and
    the helper reaches them through references, as [result.items()] and
    [list(v)] do; the dict and the lists the helper builds itself never
    leave it and stay plain values. *)

Module Store.
Definition ref := nat.

(** A member of a list: a [str], [None], or an object of a type [json]
    does not serialize (a set, a bytes object). *)
Inductive member : Type :=
| MStr (s : pystr)
| MNone
| MObject.

(** The objects a lookup may return or put in a mapping: a dict with
    references as values, a set, list or tuple of [str], a list of any
    members, a one-shot iterator (a generator) with what it has still to
    yield, and [None]. *)
Inductive object : Type :=
| ODict (entries : list (pos_key * ref))
| OColl (members : collection)
| OList (members : list member)
| OIter (remaining : list pystr)
| ONone.

Definition store := list object.

(** The object at a reference.  Every reference a program holds is to an
    object; a reference beyond the end of the store is read as [None]. *)
Definition deref (st : store) (r : ref) : object := nth r st ONone.

(** The store with the object at [r] replaced. *)
Fixpoint assign (st : store) (r : ref) (o : object) : store :=
  match st, r with
  | [], _ => []
  | _ :: rest, O => o :: rest
  | x :: rest, S r' => x :: assign rest r' o
  end.

(** A key of a dict as a member of [list(d)]. *)
Definition key_member (k : pos_key) : member :=
  match k with
  | Some s => MStr s
  | None => MNone
  end.

(** [json.dumps] on members of any kind: [None] is written null, and an
    object [json] does not serialize makes it raise ([None] here). *)
Definition encode_member (m : member) : option text :=
  match m with
  | MStr s => Some (Encoder.py_encode_basestring_ascii s)
  | MNone => Some (list_ascii_of_string "null")
  | MObject => None
  end.

Fixpoint encode_all {A} (f : A -> option text) (l : list A)
  : option (list text) :=
  match l with
  | [] => Some []
  | x :: r =>
      match f x, encode_all f r with
      | Some t, Some ts => Some (t :: ts)
      | _, _ => None
      end
  end.

Definition encode_members (ms : list member) : option text :=
  match encode_all encode_member ms with
  | Some parts =>
      Some ("["%char :: Encoder.join Encoder.item_separator parts
              ++ ["]"%char])
  | None => None
  end.

Definition encode_entry (kv : pystr * list member) : option text :=
  match encode_members (snd kv) with
  | Some t =>
      Some (Encoder.py_encode_basestring_ascii (fst kv)
              ++ Encoder.key_separator ++ t)
  | None => None
  end.

Definition encode_object (d : dict pystr (list member)) : option text :=
  match encode_all encode_entry d with
  | Some parts =>
      Some ("{"%char :: Encoder.join Encoder.item_separator parts
              ++ ["}"%char])
  | None => None
  end.

(** No value of the dict at [result] is a one-shot iterator. *)
Definition reiterable (st : store) (result : ref) : bool :=
  match deref st result with
  | ODict entries =>
      forallb (fun kv => match deref st (snd kv) with
                         | OIter _ => false
                         | _ => true
                         end) entries
  | _ => true
  end.

(** A dict of lists of [str], its lists taken as lists of members. *)
Definition typed (d : dict pystr (list pystr)) : dict pystr (list member) :=
  map (fun kv => (fst kv, map MStr (snd kv))) d.

Section Helper.
Variables W E : Type.

(** The exceptions Python itself raises in the helper. *)
Variables AttributeError TypeError : E.

Definition state : Type := W * store.

Definition lookup : Type :=
  pystr -> option pystr -> M state E ref.

Definition raise {A} (e : E) : M state E A :=
  fun s => (Raises e, s).

(** [result.items()]: only a dict has the method. *)
Definition items (result : ref) : M state E (list (pos_key * ref)) :=
  fun s =>
    match deref (snd s) result with
    | ODict entries => (Returns entries, s)
    | _ => (Raises AttributeError, s)
    end.

(** [list(v)]: the keys of a dict, the members of a set, list or tuple in
    iteration order, what an iterator has still to yield, which uses the
    iterator up; [None] is not iterable. *)
Definition list_of (v : ref) : M state E (list member) :=
  fun s =>
    match deref (snd s) v with
    | ODict entries =>
        (Returns (map (fun kv => key_member (fst kv)) entries), s)
    | OColl c => (Returns (map MStr (py_list c)), s)
    | OList ms => (Returns ms, s)
    | OIter remaining =>
        (Returns (map MStr remaining), (fst s, assign (snd s) v (OIter [])))
    | ONone => (Raises TypeError, s)
    end.

(** The dict comprehension, one item after the other. *)
Fixpoint comprehension (its : list (pos_key * ref))
         (d : dict pystr (list member))
  : M state E (dict pystr (list member)) :=
  match its with
  | [] => ret d
  | (k, v) :: rest =>
      l <- list_of v ;;
      comprehension rest (dict_set pystr_eq_dec d (key_expr k) l)
  end.

(** [json.dumps(d)]. *)
Definition dumps (d : dict pystr (list member)) : M state E string :=
  match encode_object d with
  | Some t => ret (string_of_list_ascii t)
  | None => raise TypeError
  end.

Definition morphy_to_json (morphy : lookup) (form : pystr)
           (pos : argument (option pystr)) : M state E string :=
  let pos := with_default None pos in
  result <- morphy form pos ;;
  its <- items result ;;
  d <- comprehension its [] ;;
  dumps d.

(** The value of the mapping at [result] when it is as the lookup's
    interface says, a dict whose values are sets, lists or tuples of [str]:
    its items, each collection read through its reference. *)
Fixpoint read_items (st : store) (its : list (pos_key * ref))
  : option lookup_result :=
  match its with
  | [] => Some []
  | (k, v) :: rest =>
      match deref st v, read_items st rest with
      | OColl c, Some r => Some ((k, c) :: r)
      | _, _ => None
      end
  end.

Definition snapshot (st : store) (result : ref) : option lookup_result :=
  match deref st result with
  | ODict entries => read_items st entries
  | _ => None
  end.
End Helper.
End Store.

(** The pair the comprehension assigns for an item of the result. *)
Definition image (kv : pos_key * collection) : pystr * list pystr :=
  (key_expr (fst kv), py_list (snd kv)).

(** A printable ASCII character: from space to tilde. *)
Definition printable (c : ascii) : bool :=
  ((32 <=? N_of_ascii c) && (N_of_ascii c <=? 126))%N.

(** ** Lookups used to exercise the helper *)

(** A lookup that returns the same mapping for every form. *)
Definition constant_lookup {E} (result : lookup_result) : lookup unit E :=
  fun _ _ => ret result.

(** A lookup that raises. *)
Definition failing_lookup {E} (e : E) : lookup unit E :=
  fun _ _ w => (Raises e, w).

(** The mapping and the text of the worked example. *)
Definition running_result : lookup_result :=
  [(None, PyList [lit "run"]); (Some (lit "v"), PyList [lit "run"])].

Definition running_output : string :=
  "{" ++ quoted "null" ++ ": [" ++ quoted "run" ++ "], "
      ++ quoted "v" ++ ": [" ++ quoted "run" ++ "]}".

(** A mapping with both the key [None] and the key ['null']. *)
Definition collision_result : lookup_result :=
  [(None, PySet [lit "run"]); (Some (lit "v"), PySet [lit "run"]);
   (Some (lit "null"), PyList [lit "nil"; lit "void"])].

(** A mapping whose only key is a high surrogate followed by a low
    surrogate, two code points that [json] reads back as one. *)
Definition surrogate_result : lookup_result :=
  [(Some [0xd83d%N; 0xde00%N], PyList [])].

(** The mapping of the worked example, its members held in a set and in a
    tuple. *)
Definition running_result_mixed : lookup_result :=
  [(None, PySet [lit "run"]); (Some (lit "v"), PyTuple [lit "run"])].

(** A lookup whose answer names the form and the part of speech it was
    given. *)
Definition echo_lookup : lookup unit unit :=
  fun form pos => ret [(pos, PyList [form])].

(** A lookup that answers with the same set of two members, iterated in one
    order or in the other as the world has it. *)
Definition set_lookup : lookup bool unit :=
  fun _ _ w =>
    (Returns [(None, PySet (if w then [lit "run"; lit "ran"]
                            else [lit "ran"; lit "run"]))], w).

(** A lookup that answers with the members of the worked example, held in
    lists or in a set and a tuple as the world has it. *)
Definition kind_lookup : lookup bool unit :=
  fun _ _ w =>
    (Returns (if w then running_result else running_result_mixed), w).

(** A lookup with a memory: it counts its calls and answers the first one
    with the empty mapping and every later one with a single entry. *)
Definition counting_lookup : lookup nat unit :=
  fun _ _ n =>
    (Returns (match n with O => [] | S _ => [(None, PySet [])] end), S n).

(** Texts the helper returns in the examples below. *)
Definition collision_output : string :=
  "{" ++ quoted "null" ++ ": [" ++ quoted "nil" ++ ", " ++ quoted "void"
      ++ "], " ++ quoted "v" ++ ": [" ++ quoted "run" ++ "]}".

Definition null_run_output : string :=
  "{" ++ quoted "null" ++ ": [" ++ quoted "run" ++ "]}".

Definition null_empty_output : string := "{" ++ quoted "null" ++ ": []}".

(** The exceptions of the examples, by the names of their classes. *)
Definition AttributeError : string := "AttributeError".
Definition TypeError : string := "TypeError".
Definition LookupError : string := "LookupError".

(** A lookup that keeps its answer in the store and hands out the same dict
    object, at reference 0, at every call. *)
Definition stored_lookup : Store.lookup unit string :=
  fun _ _ s => (Returns 0, s).

(** A lookup in the store that raises. *)
Definition failing_stored_lookup (e : string) : Store.lookup unit string :=
  fun _ _ s => (Raises e, s).

(** A store where the dict maps both of its keys to one and the same set
    object, at reference 1. *)
Definition shared_store : Store.store :=
  [Store.ODict [(None, 1); (Some (lit "v"), 1)];
   Store.OColl (PySet [lit "run"])].

(** A store where the value of the dict is a one-shot iterator, before and
    after it has been used up. *)
Definition iterator_store : Store.store :=
  [Store.ODict [(None, 1)]; Store.OIter [lit "run"]].

Definition exhausted_store : Store.store :=
  [Store.ODict [(None, 1)]; Store.OIter []].

(** Stores where the lookup's answer is not what its interface says: a list
    in place of the mapping, [None] as a value, a list with a member that
    [json] does not serialize. *)
Definition list_store : Store.store := [Store.OColl (PyList [lit "run"])].

Definition none_value_store : Store.store :=
  [Store.ODict [(None, 1)]; Store.ONone].

Definition object_member_store : Store.store :=
  [Store.ODict [(None, 1)];
   Store.OList [Store.MStr (lit "run"); Store.MObject]].

(** A store where the value of the dict is itself a dict. *)
Definition dict_value_store : Store.store :=
  [Store.ODict [(Some (lit "a"), 1)];
   Store.ODict [(Some (lit "v"), 2); (None, 2)];
   Store.OColl (PySet [])].

(** * Properties *)

Section Serializer.
Variables W E : Type.
Variable morphy : lookup W E.

(** The helper is the lookup's call followed by the serialization of what
    it returned. *)
Lemma morphy_to_json_unfold form pos w :
  morphy_to_json morphy form pos w =
  (outcome_map (fun r => json_dumps (dict_comprehension r))
               (fst (morphy form (with_default None pos) w)),
   snd (morphy form (with_default None pos) w)).
Proof.
  unfold morphy_to_json, bind, ret.
  destruct (morphy form (with_default None pos) w) as [[r | e] w']; reflexivity.
Qed.

Lemma morphy_to_json_returns form pos w result w' :
  morphy form (with_default None pos) w = (Returns result, w') ->
  morphy_to_json morphy form pos w =
  (Returns (json_dumps (dict_comprehension result)), w').
Proof. intros H. rewrite morphy_to_json_unfold, H. reflexivity. Qed.
End Serializer.

(** C3.  Called with the form running and no part of speech, when the lookup
    returns [{None: ['run'], 'v': ['run']}], the helper returns the text
    [{"null": ["run"], "v": ["run"]}]. *)
Theorem worked_example_running W E (morphy : lookup W E) (w w' : W) :
  morphy (lit "running") None w = (Returns running_result, w') ->
  morphy_to_json morphy (lit "running") Omitted w
  = (Returns running_output, w').
Proof.
  intros H. rewrite (morphy_to_json_returns morphy _ Omitted w H).
  reflexivity.
Qed.

Lemma worked_example_running_witness :
  constant_lookup (E := unit) running_result (lit "running") None tt
  = (Returns running_result, tt)
  /\ morphy_to_json (constant_lookup (E := unit) running_result)
                    (lit "running") Omitted tt
     = (Returns running_output, tt).
Proof.
  split; [reflexivity |].
  apply (@worked_example_running unit unit (constant_lookup running_result)).
  reflexivity.
Defined.

(** C4.  Whenever the lookup returns the empty mapping, the helper returns
    the two characters of an empty object. *)
Theorem empty_result W E (morphy : lookup W E) form pos (w w' : W) :
  morphy form (with_default None pos) w = (Returns [], w') ->
  morphy_to_json morphy form pos w = (Returns "{}"%string, w').
Proof.
  intros H. rewrite (morphy_to_json_returns morphy _ pos w H). reflexivity.
Qed.

Lemma empty_result_witness :
  constant_lookup (E := unit) [] (lit "xyzzy") (Some (lit "n")) tt
  = (Returns [], tt)
  /\ morphy_to_json (constant_lookup (E := unit) []) (lit "xyzzy")
                    (Passed (Some (lit "n"))) tt
     = (Returns "{}"%string, tt).
Proof.
  split; [reflexivity |].
  apply (@empty_result unit unit (constant_lookup [])). reflexivity.
Defined.

(** ** Dicts *)

Section DictFacts.
Variables K V : Type.
Variable K_eq_dec : forall x y : K, {x = y} + {x <> y}.
Implicit Types (d : dict K V) (k : K) (v : V).

Lemma dict_set_fresh d k v :
  ~ In k (keys d) -> dict_set K_eq_dec d k v = d ++ [(k, v)].
Proof.
  induction d as [| [k' v'] d IH]; simpl; intros Hk; [reflexivity |].
  destruct (K_eq_dec k' k) as [-> | Hne]; [tauto |].
  rewrite IH; [reflexivity | tauto].
Qed.

Lemma dict_set_present d1 d2 k v v' :
  ~ In k (keys d1) ->
  dict_set K_eq_dec (d1 ++ (k, v) :: d2) k v' = d1 ++ (k, v') :: d2.
Proof.
  induction d1 as [| [k1 v1] d1 IH]; simpl; intros Hk.
  - destruct (K_eq_dec k k); [reflexivity | congruence].
  - destruct (K_eq_dec k1 k) as [-> | Hne]; [tauto |].
    rewrite IH; [reflexivity | tauto].
Qed.

Lemma keys_dict_set d k v :
  keys (dict_set K_eq_dec d k v)
  = if in_dec K_eq_dec k (keys d) then keys d else keys d ++ [k].
Proof.
  induction d as [| [k' v'] d IH]; simpl; [reflexivity |].
  destruct (K_eq_dec k' k) as [-> | Hne]; simpl.
  - reflexivity.
  - rewrite IH. destruct (in_dec K_eq_dec k (keys d)); [reflexivity |].
    reflexivity.
Qed.

Lemma dict_set_wf d k v : dict_wf d -> dict_wf (dict_set K_eq_dec d k v).
Proof.
  unfold dict_wf. intros Hwf. rewrite keys_dict_set.
  destruct (in_dec K_eq_dec k (keys d)) as [Hin | Hnin]; [exact Hwf |].
  apply NoDup_app; [exact Hwf | repeat constructor; simpl; tauto |].
  intros x Hx [<- | []]. exact (Hnin Hx).
Qed.

Lemma in_dict_set d k v k0 v0 :
  In (k0, v0) (dict_set K_eq_dec d k v) ->
  (k0 = k /\ v0 = v) \/ In (k0, v0) d.
Proof.
  induction d as [| [k' v'] d IH]; simpl.
  - intros [H | []]. inversion H. tauto.
  - destruct (K_eq_dec k' k) as [-> | Hne]; simpl.
    + intros [H | H]; [inversion H |]; tauto.
    + intros [H | H]; [tauto |]. destruct (IH H); tauto.
Qed.

Lemma dict_get_set d k v k0 :
  dict_get K_eq_dec (dict_set K_eq_dec d k v) k0
  = if K_eq_dec k k0 then Some v else dict_get K_eq_dec d k0.
Proof.
  induction d as [| [k' v'] d IH]; simpl.
  - reflexivity.
  - destruct (K_eq_dec k' k) as [-> | Hne]; simpl.
    + destruct (K_eq_dec k k0); reflexivity.
    + rewrite IH. destruct (K_eq_dec k' k0) as [-> | Hne0]; [| reflexivity].
      destruct (K_eq_dec k k0); [congruence | reflexivity].
Qed.

(** Pairs with distinct keys make the dict with exactly these pairs. *)
Lemma fold_dict_set_fresh (pairs : list (K * V)) d :
  NoDup (keys pairs) ->
  (forall k, In k (keys pairs) -> ~ In k (keys d)) ->
  fold_left (fun d kv => dict_set K_eq_dec d (fst kv) (snd kv)) pairs d
  = d ++ pairs.
Proof.
  revert d. induction pairs as [| [k v] pairs IH]; simpl; intros d Hnd Hfresh.
  - now rewrite app_nil_r.
  - inversion Hnd as [| ? ? Hk Hnd']; subst.
    rewrite dict_set_fresh by (apply Hfresh; now left).
    rewrite IH; [now rewrite <- app_assoc | exact Hnd' |].
    intros k0 Hk0. unfold keys. rewrite map_app, in_app_iff. simpl.
    intros [Hin | [<- | []]]; [| exact (Hk Hk0)].
    apply (Hfresh k0); [now right | exact Hin].
Qed.

Lemma dict_of_pairs_NoDup (pairs : list (K * V)) :
  NoDup (keys pairs) -> dict_of_pairs K_eq_dec pairs = pairs.
Proof.
  intros Hnd. unfold dict_of_pairs.
  rewrite fold_dict_set_fresh; [reflexivity | exact Hnd |].
  intros k _ [].
Qed.

Lemma fold_dict_set_wf (pairs : list (K * V)) d :
  dict_wf d ->
  dict_wf (fold_left (fun d kv => dict_set K_eq_dec d (fst kv) (snd kv))
                     pairs d).
Proof.
  revert d. induction pairs as [| kv pairs IH]; simpl; intros d Hwf.
  - exact Hwf.
  - apply IH, dict_set_wf, Hwf.
Qed.
End DictFacts.

(** ** The dict comprehension *)

Lemma dict_comprehension_fold items d :
  fold_left (fun d kv => dict_set pystr_eq_dec d (key_expr (fst kv))
                                  (py_list (snd kv))) items d
  = fold_left (fun d kv => dict_set pystr_eq_dec d (fst kv) (snd kv))
              (map image items) d.
Proof.
  revert d. induction items as [| kv items IH]; simpl; intros d;
    [reflexivity | apply IH].
Qed.

Lemma dict_comprehension_pairs items :
  dict_comprehension items = dict_of_pairs pystr_eq_dec (map image items).
Proof. apply dict_comprehension_fold. Qed.

Lemma dict_comprehension_snoc items kv :
  dict_comprehension (items ++ [kv])
  = dict_set pystr_eq_dec (dict_comprehension items) (key_expr (fst kv))
             (py_list (snd kv)).
Proof. unfold dict_comprehension. now rewrite fold_left_app. Qed.

Lemma dict_comprehension_wf items : dict_wf (dict_comprehension items).
Proof.
  rewrite dict_comprehension_pairs. apply fold_dict_set_wf. constructor.
Qed.

Lemma keys_image items : keys (map image items) = map key_expr (keys items).
Proof. unfold keys. rewrite !map_map. reflexivity. Qed.

(** Every key of the result has its substituted key in the comprehension. *)
Lemma dict_comprehension_keys_complete items k :
  In k (keys items) -> In (key_expr k) (keys (dict_comprehension items)).
Proof.
  induction items as [| kv items IH] using rev_ind; [intros [] |].
  unfold keys at 1. rewrite map_app, in_app_iff. simpl.
  rewrite dict_comprehension_snoc, keys_dict_set. intros Hin.
  destruct (in_dec pystr_eq_dec (key_expr (fst kv))
                   (keys (dict_comprehension items))) as [Hk | Hk].
  - destruct Hin as [Hin | [<- | []]]; [now apply IH | exact Hk].
  - rewrite in_app_iff. destruct Hin as [Hin | [<- | []]];
      [left; now apply IH | right; now left].
Qed.

(** Every entry of the comprehension is the image of an item. *)
Lemma dict_comprehension_sound items s l :
  In (s, l) (dict_comprehension items) ->
  exists k v, In (k, v) items /\ s = key_expr k /\ l = py_list v.
Proof.
  induction items as [| [k v] items IH] using rev_ind; [intros [] |].
  rewrite dict_comprehension_snoc. intros Hin.
  apply in_dict_set in Hin. destruct Hin as [[-> ->] | Hin].
  - exists k, v. rewrite in_app_iff. simpl. tauto.
  - destruct (IH Hin) as (k0 & v0 & H0 & Hs & Hl).
    exists k0, v0. rewrite in_app_iff. tauto.
Qed.

(** Without two keys that the substitution sends to the same text, the
    comprehension is the item-wise image of the result, in its order. *)
Lemma dict_comprehension_injective items :
  NoDup (map key_expr (keys items)) ->
  dict_comprehension items = map image items.
Proof.
  intros Hnd. rewrite dict_comprehension_pairs.
  apply dict_of_pairs_NoDup. now rewrite keys_image.
Qed.

(** The substitution identifies [None] and ['null'] and nothing else. *)
Lemma key_expr_collision (k k' : pos_key) :
  key_expr k = key_expr k' ->
  k = k' \/ (k = None /\ k' = Some (lit "null"))
  \/ (k = Some (lit "null") /\ k' = None).
Proof.
  destruct k as [s |], k' as [s' |]; simpl; intros H; subst; auto.
Qed.

Lemma key_expr_NoDup (ks : list pos_key) :
  NoDup ks -> ~ (In None ks /\ In (Some (lit "null")) ks) ->
  NoDup (map key_expr ks).
Proof.
  induction 1 as [| k ks Hk Hnd IH]; simpl; intros Hcol; [constructor |].
  constructor.
  - rewrite in_map_iff. intros (k' & Heq & Hin).
    destruct (key_expr_collision _ _ Heq) as [-> | [[-> ->] | [-> ->]]];
      tauto.
  - apply IH. tauto.
Qed.

Section Overwrite.
Variables K V : Type.
Variable K_eq_dec : forall x y : K, {x = y} + {x <> y}.

(** A key assigned twice stays where it was first put and keeps the value
    assigned last. *)
Lemma dict_of_pairs_twice (p1 p2 p3 : list (K * V)) k v1 v2 :
  NoDup (keys (p1 ++ (k, v1) :: p2 ++ p3)) ->
  dict_of_pairs K_eq_dec (p1 ++ (k, v1) :: p2 ++ (k, v2) :: p3)
  = p1 ++ (k, v2) :: p2 ++ p3.
Proof.
  intros Hnd.
  replace (p1 ++ (k, v1) :: p2 ++ (k, v2) :: p3)
    with ((p1 ++ (k, v1) :: p2) ++ (k, v2) :: p3)
    by (rewrite <- app_assoc; reflexivity).
  replace (p1 ++ (k, v1) :: p2 ++ p3) with ((p1 ++ (k, v1) :: p2) ++ p3)
    in Hnd by (rewrite <- app_assoc; reflexivity).
  unfold keys in Hnd. rewrite map_app in Hnd.
  unfold dict_of_pairs. rewrite fold_left_app. simpl.
  fold (dict_of_pairs K_eq_dec (p1 ++ (k, v1) :: p2)).
  rewrite dict_of_pairs_NoDup by (apply (NoDup_app_remove_r _ _ Hnd)).
  assert (Hk1 : ~ In k (keys p1)).
  { apply NoDup_app_remove_r in Hnd. rewrite map_app in Hnd. simpl in Hnd.
    apply NoDup_remove_2 in Hnd. rewrite in_app_iff in Hnd.
    unfold keys. tauto. }
  rewrite dict_set_present by exact Hk1.
  rewrite fold_dict_set_fresh.
  - rewrite <- app_assoc. reflexivity.
  - apply (NoDup_app_remove_l _ _ Hnd).
  - intros k0 Hk0 Hin.
    assert (Hin' : In k0 (map fst (p1 ++ (k, v1) :: p2))).
    { unfold keys in Hin. rewrite map_app in *. simpl in *.
      rewrite in_app_iff in *. simpl in *. tauto. }
    clear Hin. revert Hnd Hin' Hk0. generalize (map fst (p1 ++ (k, v1) :: p2)).
    intros l Hnd Hin' Hk0. induction l as [| a l IH]; [destruct Hin' |].
    simpl in Hnd. inversion Hnd; subst.
    destruct Hin' as [-> | Hin'].
    + rewrite in_app_iff in *. unfold keys in Hk0. tauto.
    + now apply IH.
Qed.
End Overwrite.

Lemma dict_wf_functional K V (d : dict K V) k v v' :
  dict_wf d -> In (k, v) d -> In (k, v') d -> v = v'.
Proof.
  unfold dict_wf, keys. induction d as [| [k0 v0] d IH]; simpl; [tauto |].
  intros Hnd. inversion Hnd as [| ? ? Hk0 Hnd']; subst.
  intros [H | H] [H' | H'].
  - congruence.
  - inversion H; subst. exfalso. apply Hk0.
    change k with (fst (k, v')). now apply in_map.
  - inversion H'; subst. exfalso. apply Hk0.
    change k with (fst (k, v)). now apply in_map.
  - now apply IH.
Qed.

Lemma dict_get_In K V (K_eq_dec : forall x y : K, {x = y} + {x <> y})
      (d : dict K V) k v :
  dict_wf d -> In (k, v) d -> dict_get K_eq_dec d k = Some v.
Proof.
  unfold dict_wf, keys. induction d as [| [k0 v0] d IH]; simpl; [tauto |].
  intros Hnd. inversion Hnd as [| ? ? Hk0 Hnd']; subst.
  intros [H | H].
  - inversion H; subst. destruct (K_eq_dec k k); congruence.
  - destruct (K_eq_dec k0 k) as [-> | Hne]; [| now apply IH].
    exfalso. apply Hk0. change k with (fst (k, v)). now apply in_map.
Qed.

(** A result with both keys, cut at the two entries. *)
Lemma has_null_collision_split (result : lookup_result) :
  has_null_collision result ->
  exists A B C k1 v1 k2 v2,
    result = A ++ (k1, v1) :: B ++ (k2, v2) :: C
    /\ ((k1 = None /\ k2 = Some (lit "null"))
        \/ (k1 = Some (lit "null") /\ k2 = None)).
Proof.
  intros [Hnone Hnull]. unfold keys in Hnone.
  apply in_map_iff in Hnone. destruct Hnone as ([k v] & Hk & Hin).
  simpl in Hk. subst k.
  destruct (in_split _ _ Hin) as (L & R & ->).
  unfold keys in Hnull. rewrite map_app, in_app_iff in Hnull. simpl in Hnull.
  destruct Hnull as [HL | [Habs | HR]]; [| discriminate |].
  - apply in_map_iff in HL. destruct HL as ([k1 v1] & Hk1 & HL).
    simpl in Hk1. subst k1.
    destruct (in_split _ _ HL) as (A & B & ->).
    exists A, B, R, (Some (lit "null")), v1, None, v.
    split; [| now right].
    rewrite <- app_assoc. reflexivity.
  - apply in_map_iff in HR. destruct HR as ([k2 v2] & Hk2 & HR).
    simpl in Hk2. subst k2.
    destruct (in_split _ _ HR) as (B & C & ->).
    exists L, B, C, None, v, (Some (lit "null")), v2.
    split; [reflexivity | now left].
Qed.

(** The comprehension of a result with both keys. *)
Lemma dict_comprehension_collision (A B C : lookup_result) k1 v1 k2 v2 :
  dict_wf (A ++ (k1, v1) :: B ++ (k2, v2) :: C) ->
  (k1 = None /\ k2 = Some (lit "null"))
  \/ (k1 = Some (lit "null") /\ k2 = None) ->
  dict_comprehension (A ++ (k1, v1) :: B ++ (k2, v2) :: C)
  = map image A ++ (lit "null", py_list v2) :: map image B ++ map image C.
Proof.
  intros Hwf Hk.
  assert (Hk1 : key_expr k1 = lit "null")
    by (destruct Hk as [[-> _] | [-> _]]; reflexivity).
  assert (Hk2 : key_expr k2 = lit "null")
    by (destruct Hk as [[_ ->] | [_ ->]]; reflexivity).
  assert (Hi1 : image (k1, v1) = (lit "null", py_list v1))
    by (unfold image; simpl; now rewrite Hk1).
  assert (Hi2 : image (k2, v2) = (lit "null", py_list v2))
    by (unfold image; simpl; now rewrite Hk2).
  rewrite dict_comprehension_pairs.
  rewrite map_app, map_cons, map_app, map_cons, Hi1, Hi2.
  apply dict_of_pairs_twice.
  assert (Himg : map image A ++ (lit "null", py_list v1)
                     :: map image B ++ map image C
                 = map image (A ++ (k1, v1) :: B ++ C)).
  { rewrite map_app, map_cons, map_app, Hi1. reflexivity. }
  rewrite Himg, keys_image.
  unfold dict_wf, keys in Hwf.
  replace (A ++ (k1, v1) :: B ++ (k2, v2) :: C)
    with ((A ++ (k1, v1) :: B) ++ (k2, v2) :: C) in Hwf
    by (rewrite <- app_assoc; reflexivity).
  rewrite map_app in Hwf. simpl in Hwf.
  pose proof (NoDup_remove_1 _ _ _ Hwf) as Hnd.
  pose proof (NoDup_remove_2 _ _ _ Hwf) as Hnin.
  rewrite <- map_app in Hnd, Hnin. rewrite <- app_assoc in Hnd, Hnin.
  simpl in Hnd, Hnin.
  apply key_expr_NoDup; [exact Hnd |].
  intros [H1 H2]. apply Hnin.
  destruct Hk as [[_ ->] | [_ ->]]; assumption.
Qed.

Lemma running_result_wf : dict_wf running_result.
Proof.
  unfold dict_wf. simpl. repeat constructor; simpl; intuition discriminate.
Qed.

Lemma collision_result_wf : dict_wf collision_result.
Proof.
  unfold dict_wf. simpl. repeat constructor; simpl; intuition discriminate.
Qed.

Lemma collision_result_collides : has_null_collision collision_result.
Proof. split; simpl; auto. Qed.

(** ** Code point arithmetic *)

Section Surrogates.
Local Open Scope N_scope.

Lemma lor_shifted (h x : N) : x < 1024 -> N.lor (h * 1024) x = h * 1024 + x.
Proof.
  intros Hx.
  assert (Hdisj : N.land (h * 1024) x = 0).
  { apply N.bits_inj. intros m. rewrite N.land_spec, N.bits_0.
    change 1024 with (2 ^ 10). rewrite <- N.shiftl_mul_pow2.
    destruct (N.ltb_spec m 10) as [Hm | Hm].
    - now rewrite N.shiftl_spec_low.
    - replace x with (x mod 2 ^ 10) by (apply N.mod_small; exact Hx).
      rewrite N.mod_pow2_bits_high by exact Hm. apply andb_false_r. }
  rewrite <- N.lxor_lor by exact Hdisj.
  symmetry. apply N.add_nocarry_lxor. exact Hdisj.
Qed.

Lemma surrogate1_value c :
  Encoder.surrogate1 c = 0xd800 + ((c - 0x10000) / 1024) mod 1024.
Proof.
  unfold Encoder.surrogate1.
  change 0x3ff with (N.ones 10). rewrite N.land_ones, N.shiftr_div_pow2.
  change (2 ^ 10) with 1024. change 0xd800 with (54 * 1024).
  apply lor_shifted. apply N.mod_lt. discriminate.
Qed.

Lemma surrogate2_value c :
  Encoder.surrogate2 c = 0xdc00 + (c - 0x10000) mod 1024.
Proof.
  unfold Encoder.surrogate2.
  change 0x3ff with (N.ones 10). rewrite N.land_ones.
  change (2 ^ 10) with 1024. change 0xdc00 with (55 * 1024).
  apply lor_shifted. apply N.mod_lt. discriminate.
Qed.

Lemma join_surrogates_value hi lo :
  0xd800 <= hi -> 0xdc00 <= lo <= 0xdfff ->
  Decoder.join_surrogates hi lo
  = 0x10000 + (hi - 0xd800) * 1024 + (lo - 0xdc00).
Proof.
  intros Hhi Hlo. unfold Decoder.join_surrogates.
  rewrite N.shiftl_mul_pow2. change (2 ^ 10) with 1024.
  rewrite lor_shifted by lia. lia.
Qed.

Lemma surrogate1_high c : is_high_surrogate (Encoder.surrogate1 c) = true.
Proof.
  rewrite surrogate1_value. unfold is_high_surrogate.
  pose proof (N.mod_lt ((c - 0x10000) / 1024) 1024 ltac:(discriminate)).
  set (x := ((c - 0x10000) / 1024) mod 1024) in *. clearbody x.
  apply andb_true_intro. split; apply N.leb_le; lia.
Qed.

Lemma surrogate2_low c : is_low_surrogate (Encoder.surrogate2 c) = true.
Proof.
  rewrite surrogate2_value. unfold is_low_surrogate.
  pose proof (N.mod_lt (c - 0x10000) 1024 ltac:(discriminate)).
  set (x := (c - 0x10000) mod 1024) in *. clearbody x.
  apply andb_true_intro. split; apply N.leb_le; lia.
Qed.

(** A valid code point above the BMP is read back from its pair. *)
Lemma join_surrogates_pair c :
  0x10000 <= c < 0x110000 ->
  Decoder.join_surrogates (Encoder.surrogate1 c) (Encoder.surrogate2 c) = c.
Proof.
  intros Hc.
  pose proof (surrogate1_value c) as H1.
  pose proof (surrogate2_value c) as H2.
  rewrite (N.mod_small ((c - 0x10000) / 1024) 1024) in H1
    by (apply N.Div0.div_lt_upper_bound; lia).
  pose proof (N.mod_lt (c - 0x10000) 1024 ltac:(discriminate)) as Hlt.
  pose proof (N.div_mod (c - 0x10000) 1024 ltac:(discriminate)) as Hdm.
  set (q := (c - 0x10000) / 1024) in *.
  set (r := (c - 0x10000) mod 1024) in *. clearbody q r.
  rewrite join_surrogates_value by lia.
  rewrite H1, H2. lia.
Qed.
End Surrogates.

(** ** Hexadecimal escapes *)

Section Hex.
Local Open Scope N_scope.

Lemma unhex_hexdigit k :
  k < 16 -> Decoder.unhex (Encoder.hexdigit k) = Some k.
Proof.
  intros Hk.
  assert (Hcases : In k [0; 1; 2; 3; 4; 5; 6; 7; 8; 9; 10; 11; 12; 13; 14; 15])
    by (simpl; lia).
  simpl in Hcases.
  repeat (destruct Hcases as [<- | Hcases]; [reflexivity |]).
  destruct Hcases.
Qed.

Lemma base16_digits n :
  n < 0x10000 ->
  (((n / 4096 mod 16) * 16 + n / 256 mod 16) * 16 + n / 16 mod 16) * 16
  + n mod 16 = n.
Proof.
  intros Hn.
  pose proof (N.div_mod n 16 ltac:(discriminate)) as H0.
  pose proof (N.div_mod (n / 16) 16 ltac:(discriminate)) as H1.
  pose proof (N.div_mod (n / 256) 16 ltac:(discriminate)) as H2.
  replace (n / 16 / 16) with (n / 256) in H1
    by (now rewrite N.Div0.div_div).
  replace (n / 256 / 16) with (n / 4096) in H2
    by (now rewrite N.Div0.div_div).
  rewrite (N.mod_small (n / 4096) 16)
    by (apply N.Div0.div_lt_upper_bound; lia).
  set (q1 := n / 16) in *. set (q2 := n / 256) in *.
  set (q3 := n / 4096) in *.
  set (d0 := n mod 16) in *. set (d1 := q1 mod 16) in *.
  set (d2 := q2 mod 16) in *. clearbody q1 q2 q3 d0 d1 d2. lia.
Qed.

Lemma decode_format_04x n :
  n < 0x10000 ->
  Decoder.decode_uXXXX (Encoder.hexdigit (n / 4096 mod 16))
                       (Encoder.hexdigit (n / 256 mod 16))
                       (Encoder.hexdigit (n / 16 mod 16))
                       (Encoder.hexdigit (n mod 16)) = Some n.
Proof.
  intros Hn. unfold Decoder.decode_uXXXX.
  rewrite !unhex_hexdigit by (apply N.mod_lt; discriminate).
  now rewrite base16_digits.
Qed.
End Hex.

(** ** Reading back an encoded string *)

Section ScanString.
Local Open Scope N_scope.
Import Decoder.

Lemma scanstring_close r : scanstring (dquote :: r) = Some ([], r).
Proof. reflexivity. Qed.

Lemma scanstring_literal c r :
  c <> dquote -> c <> backslash -> 0x20 <= N_of_ascii c ->
  scanstring (c :: r) = push (N_of_ascii c) (scanstring r).
Proof.
  intros Hq Hb Hc. simpl.
  apply Ascii.eqb_neq in Hq, Hb. rewrite Hq, Hb.
  apply N.ltb_ge in Hc. now rewrite Hc.
Qed.

Lemma scanstring_simple e ch r :
  e <> "u"%char -> BACKSLASH e = Some ch ->
  scanstring (backslash :: e :: r) = push ch (scanstring r).
Proof.
  intros He Hch. apply Ascii.eqb_neq in He. simpl.
  now rewrite He, Hch.
Qed.

(** The escape of a code unit that is not a high surrogate. *)
Lemma scanstring_u_single h1 h2 h3 h4 uni r :
  decode_uXXXX h1 h2 h3 h4 = Some uni ->
  is_high_surrogate uni = false ->
  scanstring (backslash :: "u"%char :: h1 :: h2 :: h3 :: h4 :: r)
  = push uni (scanstring r).
Proof. intros Hd Hh. simpl. now rewrite Hd, Hh. Qed.

(** The escapes of a high and a low surrogate, one after the other. *)
Lemma scanstring_u_pair h1 h2 h3 h4 l1 l2 l3 l4 uni uni2 r :
  decode_uXXXX h1 h2 h3 h4 = Some uni ->
  is_high_surrogate uni = true ->
  decode_uXXXX l1 l2 l3 l4 = Some uni2 ->
  is_low_surrogate uni2 = true ->
  scanstring (backslash :: "u"%char :: h1 :: h2 :: h3 :: h4
                :: backslash :: "u"%char :: l1 :: l2 :: l3 :: l4 :: r)
  = push (join_surrogates uni uni2) (scanstring r).
Proof. intros Hd Hh Hd2 Hl. simpl. now rewrite Hd, Hh, Hd2, Hl. Qed.

(** The escape of a high surrogate before an escape that is not a low
    surrogate. *)
Lemma scanstring_u_lone h1 h2 h3 h4 l1 l2 l3 l4 uni uni2 r :
  decode_uXXXX h1 h2 h3 h4 = Some uni ->
  is_high_surrogate uni = true ->
  decode_uXXXX l1 l2 l3 l4 = Some uni2 ->
  is_low_surrogate uni2 = false ->
  scanstring (backslash :: "u"%char :: h1 :: h2 :: h3 :: h4
                :: backslash :: "u"%char :: l1 :: l2 :: l3 :: l4 :: r)
  = push uni (scanstring (backslash :: "u"%char
                            :: l1 :: l2 :: l3 :: l4 :: r)).
Proof.
  intros Hd Hh Hd2 Hl. simpl. now rewrite Hd, Hh, Hd2, Hl.
Qed.

(** The escape of a high surrogate before a character written as it is,
    or before the end of the string. *)
Lemma scanstring_u_before_char h1 h2 h3 h4 uni c r :
  decode_uXXXX h1 h2 h3 h4 = Some uni ->
  c <> backslash ->
  scanstring (backslash :: "u"%char :: h1 :: h2 :: h3 :: h4 :: c :: r)
  = push uni (scanstring (c :: r)).
Proof.
  intros Hd Hc. apply Ascii.eqb_neq in Hc.
  simpl. rewrite Hd. destruct r as [| u r3]; rewrite ?Hc; simpl;
    now destruct (is_high_surrogate uni).
Qed.

(** The escape of a high surrogate before a two-character escape. *)
Lemma scanstring_u_before_simple h1 h2 h3 h4 uni e r :
  decode_uXXXX h1 h2 h3 h4 = Some uni ->
  e <> "u"%char ->
  scanstring (backslash :: "u"%char :: h1 :: h2 :: h3 :: h4
                :: backslash :: e :: r)
  = push uni (scanstring (backslash :: e :: r)).
Proof.
  intros Hd He. apply Ascii.eqb_neq in He.
  simpl. rewrite Hd, He. simpl.
  now destruct (is_high_surrogate uni).
Qed.

(** The four shapes [sub_char] gives a character: itself, a two-character
    escape, one hexadecimal escape, or a surrogate pair of them. *)
Lemma sub_char_shape (c : codepoint) :
  (exists ch, Encoder.sub_char c = [ch] /\ ch <> backslash /\ ch <> dquote
              /\ 0x20 <= N_of_ascii ch /\ N_of_ascii ch = c)
  \/ (exists e, Encoder.sub_char c = [backslash; e] /\ e <> "u"%char
                /\ BACKSLASH e = Some c)
  \/ (c < 0x10000 /\ Encoder.sub_char c = Encoder.u_escape c)
  \/ (0x10000 <= c
      /\ Encoder.sub_char c
         = Encoder.u_escape (Encoder.surrogate1 c)
             ++ Encoder.u_escape (Encoder.surrogate2 c)).
Proof.
  destruct (N.eqb_spec c 92) as [-> | H92];
    [right; left; exists backslash; repeat split; discriminate |].
  destruct (N.eqb_spec c 34) as [-> | H34];
    [right; left; exists dquote; repeat split; discriminate |].
  destruct (N.eqb_spec c 8) as [-> | H8];
    [right; left; exists "b"%char; repeat split; discriminate |].
  destruct (N.eqb_spec c 12) as [-> | H12];
    [right; left; exists "f"%char; repeat split; discriminate |].
  destruct (N.eqb_spec c 10) as [-> | H10];
    [right; left; exists "n"%char; repeat split; discriminate |].
  destruct (N.eqb_spec c 13) as [-> | H13];
    [right; left; exists "r"%char; repeat split; discriminate |].
  destruct (N.eqb_spec c 9) as [-> | H9];
    [right; left; exists "t"%char; repeat split; discriminate |].
  unfold Encoder.sub_char, Encoder.ESCAPE_ASCII, Encoder.replace,
    Encoder.ESCAPE_DCT.
  apply N.eqb_neq in H92, H34, H8, H12, H10, H13, H9.
  rewrite H92, H34, H8, H12, H10, H13, H9. simpl.
  apply N.eqb_neq in H92, H34.
  destruct (N.leb_spec 32 c) as [Hlo | Hlo]; simpl.
  - destruct (N.leb_spec c 126) as [Hhi | Hhi]; simpl.
    + left. exists (ascii_of_N c).
      assert (Hemb : N_of_ascii (ascii_of_N c) = c)
        by (apply N_ascii_embedding; lia).
      repeat split; try (rewrite Hemb; lia);
        intros Heq; rewrite Heq in Hemb; vm_compute in Hemb; lia.
    + destruct (N.ltb_spec c 32); [lia |].
      destruct (N.ltb_spec c 0x10000); [right; right; left | do 3 right];
        split; auto.
  - destruct (N.ltb_spec c 32); [| lia].
    right; right; left. split; [lia | reflexivity].
Qed.

Lemma high_surrogate_range c :
  is_high_surrogate c = true -> 0xd800 <= c <= 0xdbff.
Proof.
  unfold is_high_surrogate. intros H. apply andb_prop in H.
  destruct H as [H1 H2]. apply N.leb_le in H1, H2. lia.
Qed.

Lemma low_surrogate_range c :
  is_low_surrogate c = true -> 0xdc00 <= c <= 0xdfff.
Proof.
  unfold is_low_surrogate. intros H. apply andb_prop in H.
  destruct H as [H1 H2]. apply N.leb_le in H1, H2. lia.
Qed.

Lemma high_not_low c :
  is_high_surrogate c = true -> is_low_surrogate c = false.
Proof.
  intros H. apply high_surrogate_range in H. unfold is_low_surrogate.
  apply andb_false_intro1. apply N.leb_gt. lia.
Qed.

Lemma BACKSLASH_range e c : BACKSLASH e = Some c -> c < 128.
Proof.
  unfold BACKSLASH.
  repeat match goal with
         | |- context [if ?b then _ else _] => destruct b
         end; intros H; inversion H; reflexivity.
Qed.

Lemma u_escape_app n r :
  Encoder.u_escape n ++ r
  = backslash :: "u"%char
      :: Encoder.hexdigit (n / 4096 mod 16)
      :: Encoder.hexdigit (n / 256 mod 16)
      :: Encoder.hexdigit (n / 16 mod 16)
      :: Encoder.hexdigit (n mod 16) :: r.
Proof. reflexivity. Qed.

(** A surrogate is always written as one hexadecimal escape. *)
Lemma sub_char_surrogate c :
  0xd800 <= c <= 0xdfff -> Encoder.sub_char c = Encoder.u_escape c.
Proof.
  intros Hc.
  destruct (sub_char_shape c)
    as [(ch & _ & _ & _ & _ & Hch) | [(e & _ & _ & He) | [[_ H] | [H _]]]].
  - pose proof (N_ascii_bounded ch). lia.
  - apply BACKSLASH_range in He. lia.
  - exact H.
  - lia.
Qed.

Lemma scanstring_sub_char c r :
  c < 0x10000 -> is_high_surrogate c = false ->
  scanstring (Encoder.sub_char c ++ r) = push c (scanstring r).
Proof.
  intros Hc Hh.
  destruct (sub_char_shape c)
    as [(ch & -> & Hb & Hq & Hlo & <-) | [(e & -> & He & Hch)
                                         | [[_ ->] | [H _]]]].
  - now apply scanstring_literal.
  - now apply scanstring_simple.
  - rewrite u_escape_app.
    apply scanstring_u_single; [now apply decode_format_04x | exact Hh].
  - lia.
Qed.

Lemma scanstring_sub_char_pair c r :
  0x10000 <= c ->
  scanstring (Encoder.sub_char c ++ r)
  = push (join_surrogates (Encoder.surrogate1 c) (Encoder.surrogate2 c))
         (scanstring r).
Proof.
  intros Hc.
  destruct (sub_char_shape c)
    as [(ch & _ & _ & _ & _ & Hch) | [(e & _ & _ & He) | [[H _] | [_ ->]]]].
  - pose proof (N_ascii_bounded ch). lia.
  - apply BACKSLASH_range in He. lia.
  - lia.
  - pose proof (high_surrogate_range _ (surrogate1_high c)).
    pose proof (low_surrogate_range _ (surrogate2_low c)).
    rewrite <- app_assoc, u_escape_app, u_escape_app.
    apply scanstring_u_pair;
      [apply decode_format_04x; lia | apply surrogate1_high
       | apply decode_format_04x; lia | apply surrogate2_low].
Qed.

(** A high surrogate followed by a character that is not a low surrogate
    is read back alone. *)
Lemma scanstring_high_alone c d r :
  is_high_surrogate c = true -> is_low_surrogate d = false ->
  scanstring (Encoder.u_escape c ++ Encoder.sub_char d ++ r)
  = push c (scanstring (Encoder.sub_char d ++ r)).
Proof.
  intros Hc Hd. pose proof (high_surrogate_range _ Hc) as Hrange.
  assert (Hdec := decode_format_04x (n := c) ltac:(lia)).
  destruct (sub_char_shape d)
    as [(ch & -> & Hb & _) | [(e & -> & He & _)
                             | [[Hlt ->] | [_ ->]]]].
  - rewrite u_escape_app. now apply scanstring_u_before_char.
  - rewrite u_escape_app. now apply scanstring_u_before_simple.
  - rewrite !u_escape_app.
    eapply scanstring_u_lone;
      [exact Hdec | exact Hc | now apply decode_format_04x | exact Hd].
  - pose proof (high_surrogate_range _ (surrogate1_high d)).
    rewrite <- app_assoc, !u_escape_app.
    eapply scanstring_u_lone;
      [exact Hdec | exact Hc | apply decode_format_04x; lia
       | apply high_not_low, surrogate1_high].
Qed.

Lemma escape_cons c t :
  Encoder.escape (c :: t) = Encoder.sub_char c ++ Encoder.escape t.
Proof. reflexivity. Qed.

(** The decoder reads [read_back s] from the encoder's rendering of
    [s]. *)
Lemma scanstring_escape s :
  forall rest,
    scanstring (Encoder.escape s ++ dquote :: rest)
    = Some (read_back s, rest).
Proof.
  assert (Hind : forall n s, (List.length s <= n)%nat -> forall rest,
               scanstring (Encoder.escape s ++ dquote :: rest)
               = Some (read_back s, rest));
    [| exact (Hind (List.length s) s (le_n _))].
  clear s. induction n as [| n IH]; intros s Hlen rest.
  { destruct s; [apply scanstring_close | simpl in Hlen; lia]. }
  destruct s as [| c t]; [apply scanstring_close |].
  simpl in Hlen. rewrite escape_cons, <- app_assoc.
  cbn [read_back].
  destruct (N.leb_spec 0x10000 c) as [Hbig | Hbmp].
  - rewrite scanstring_sub_char_pair by exact Hbig.
    rewrite IH by lia. reflexivity.
  - destruct (is_high_surrogate c) eqn:Hh.
    + pose proof (high_surrogate_range _ Hh) as Hrange.
      rewrite sub_char_surrogate by lia.
      assert (Hdec := decode_format_04x (n := c) ltac:(lia)).
      destruct t as [| d t'].
      * simpl Encoder.escape. rewrite app_nil_l, u_escape_app.
        rewrite scanstring_u_before_char with (uni := c);
          [reflexivity | exact Hdec | discriminate].
      * simpl in Hlen. destruct (is_low_surrogate d) eqn:Hl.
        -- pose proof (low_surrogate_range _ Hl) as Hrange'.
           rewrite escape_cons, <- app_assoc.
           rewrite (sub_char_surrogate (c := d)) by lia.
           rewrite !u_escape_app.
           rewrite scanstring_u_pair with (uni := c) (uni2 := d);
             [| exact Hdec | exact Hh | apply decode_format_04x; lia
              | exact Hl].
           rewrite IH by lia. reflexivity.
        -- rewrite escape_cons, <- app_assoc.
           rewrite scanstring_high_alone by assumption.
           rewrite app_assoc, <- escape_cons.
           rewrite IH by (simpl; lia). reflexivity.
    + rewrite scanstring_sub_char by assumption.
      rewrite IH by lia. reflexivity.
Qed.

Lemma read_back_plain s : plain_str s -> read_back s = s.
Proof.
  intros [Hvalid Hpair]. induction Hvalid as [| c t Hc Hvalid IH];
    [reflexivity |].
  cbn [no_surrogate_pair] in Hpair. apply andb_prop in Hpair.
  destruct Hpair as [Hhere Hpair]. specialize (IH Hpair).
  cbn [read_back].
  destruct (N.leb_spec 0x10000 c) as [Hbig | Hbmp].
  - rewrite join_surrogates_pair by lia. now rewrite IH.
  - destruct (is_high_surrogate c) eqn:Hh; [| now rewrite IH].
    destruct t as [| d t']; [reflexivity |].
    simpl in Hhere. apply negb_true_iff in Hhere. rewrite Hhere.
    now rewrite IH.
Qed.
End ScanString.

(** ** Reading back encoded lists and dicts *)

Section ContainerFacts.
Import Decoder.

Lemma skip_ws_stop c r : is_ws c = false -> skip_ws (c :: r) = c :: r.
Proof. intros H. simpl. now rewrite H. Qed.

Lemma scan_once_str f x rest :
  scan_once (S f) (Encoder.py_encode_basestring_ascii x ++ rest)
  = Some (PStr (read_back x), rest).
Proof.
  unfold Encoder.py_encode_basestring_ascii.
  change ((dquote :: Encoder.escape x ++ [dquote]) ++ rest)
    with (dquote :: (Encoder.escape x ++ [dquote]) ++ rest).
  rewrite <- app_assoc.
  change (scan_once (S f) (dquote :: Encoder.escape x ++ [dquote] ++ rest))
    with (match scanstring (Encoder.escape x ++ dquote :: rest) with
          | Some (str, rest) => Some (PStr str, rest)
          | None => None
          end).
  now rewrite scanstring_escape.
Qed.

Lemma join_cons2 sep p q ps :
  Encoder.join sep (p :: q :: ps) = p ++ sep ++ Encoder.join sep (q :: ps).
Proof. reflexivity. Qed.

Lemma skip_ws_items y (l : list pystr) r :
  skip_ws (" "%char
             :: Encoder.join Encoder.item_separator
                  (map Encoder.py_encode_basestring_ascii (y :: l)) ++ r)
  = Encoder.join Encoder.item_separator
      (map Encoder.py_encode_basestring_ascii (y :: l)) ++ r.
Proof. destruct l; reflexivity. Qed.

Lemma array_loop_items (l : list pystr) :
  l <> [] ->
  forall fuel f values rest,
    (List.length l <= fuel)%nat ->
    array_loop (scan_once (S f)) fuel values
               (Encoder.join Encoder.item_separator
                             (map Encoder.py_encode_basestring_ascii l)
                  ++ "]"%char :: rest)
    = Some (PList (values ++ map PStr (map read_back l)), rest).
Proof.
  induction l as [| x l IH]; [congruence |]. intros _ fuel f values rest Hlen.
  destruct fuel as [| fuel]; [simpl in Hlen; lia |].
  destruct l as [| y l].
  - simpl Encoder.join. cbn [array_loop].
    rewrite scan_once_str. reflexivity.
  - cbn [map]. rewrite join_cons2. rewrite <- !app_assoc.
    cbn [array_loop]. rewrite scan_once_str.
    change (skip_ws (Encoder.item_separator ++
              Encoder.join Encoder.item_separator
                (Encoder.py_encode_basestring_ascii y
                   :: map Encoder.py_encode_basestring_ascii l)
              ++ "]"%char :: rest))
      with (","%char :: " "%char ::
              Encoder.join Encoder.item_separator
                (map Encoder.py_encode_basestring_ascii (y :: l))
              ++ "]"%char :: rest).
    cbv beta iota. cbn [Ascii.eqb Bool.eqb].
    rewrite skip_ws_items, IH by (simpl in *; congruence || lia).
    rewrite <- app_assoc. reflexivity.
Qed.

Lemma scan_once_list f (l : list pystr) rest :
  (List.length l <= f)%nat ->
  scan_once (S (S f)) (Encoder.encode_list l ++ rest)
  = Some (back_list l, rest).
Proof.
  intros Hlen. unfold Encoder.encode_list.
  change (scan_once (S (S f))
            (("["%char :: Encoder.join Encoder.item_separator
                (map Encoder.py_encode_basestring_ascii l) ++ ["]"%char])
               ++ rest))
    with (JSONArray (scan_once (S f)) (S f)
            ((Encoder.join Encoder.item_separator
                (map Encoder.py_encode_basestring_ascii l) ++ ["]"%char])
               ++ rest)).
  rewrite <- app_assoc. unfold JSONArray.
  destruct l as [| x l]; [reflexivity |].
  assert (Hhead : exists r,
             Encoder.join Encoder.item_separator
               (map Encoder.py_encode_basestring_ascii (x :: l))
               ++ ["]"%char] ++ rest = dquote :: r)
    by (destruct l; eexists; reflexivity).
  destruct Hhead as [r Hr]. rewrite Hr.
  cbn [skip_ws is_ws Ascii.eqb Bool.eqb orb dquote].
  rewrite <- Hr. change (["]"%char] ++ rest) with ("]"%char :: rest).
  rewrite array_loop_items by (congruence || lia). reflexivity.
Qed.

Lemma encode_item_app k l X :
  Encoder.encode_item (k, l) ++ X
  = dquote :: Encoder.escape k
      ++ dquote :: ":"%char :: " "%char :: Encoder.encode_list l ++ X.
Proof.
  unfold Encoder.encode_item, Encoder.py_encode_basestring_ascii.
  cbn [fst snd]. rewrite <- !app_assoc, <- app_comm_cons, <- app_assoc.
  reflexivity.
Qed.

Lemma skip_ws_list (l : list pystr) X :
  skip_ws (" "%char :: Encoder.encode_list l ++ X)
  = Encoder.encode_list l ++ X.
Proof. reflexivity. Qed.

(** One turn of the loop of [JSONObject] on the last item of a dict. *)
Lemma object_loop_last f fuel pairs k (l : list pystr) rest :
  (List.length l <= f)%nat ->
  object_loop (scan_once (S (S f))) (S fuel) pairs
              (Encoder.escape k
                 ++ dquote :: ":"%char :: " "%char
                 :: Encoder.encode_list l ++ "}"%char :: rest)
  = Some (PDict (dict_of_pairs pystr_eq_dec (pairs ++ [back_item (k, l)])),
          rest).
Proof.
  intros Hlen. cbn [object_loop]. rewrite scanstring_escape.
  rewrite skip_ws_stop by reflexivity. cbv beta iota.
  cbn [Ascii.eqb Bool.eqb]. rewrite skip_ws_list.
  rewrite scan_once_list by exact Hlen.
  rewrite skip_ws_stop by reflexivity. reflexivity.
Qed.

(** One turn of the loop on an item that is followed by another. *)
Lemma object_loop_next f fuel pairs k (l : list pystr) X :
  (List.length l <= f)%nat ->
  object_loop (scan_once (S (S f))) (S fuel) pairs
              (Encoder.escape k
                 ++ dquote :: ":"%char :: " "%char
                 :: Encoder.encode_list l
                 ++ ","%char :: " "%char :: dquote :: X)
  = object_loop (scan_once (S (S f))) fuel (pairs ++ [back_item (k, l)]) X.
Proof.
  intros Hlen. cbn [object_loop]. rewrite scanstring_escape.
  rewrite skip_ws_stop by reflexivity. cbv beta iota.
  cbn [Ascii.eqb Bool.eqb]. rewrite skip_ws_list.
  rewrite scan_once_list by exact Hlen.
  rewrite skip_ws_stop by reflexivity. reflexivity.
Qed.

Lemma object_loop_items (d : list (pystr * list pystr)) :
  d <> [] ->
  forall fuel f pairs rest,
    (List.length d <= fuel)%nat ->
    Forall (fun kv => (List.length (snd kv) <= f)%nat) d ->
    object_loop (scan_once (S (S f))) fuel pairs
                (tl (Encoder.join Encoder.item_separator
                                  (map Encoder.encode_item d)
                       ++ "}"%char :: rest))
    = Some (PDict (dict_of_pairs pystr_eq_dec (pairs ++ map back_item d)),
            rest).
Proof.
  induction d as [| [k l] d IH]; [congruence |].
  intros _ fuel f pairs rest Hlen Hall.
  destruct fuel as [| fuel]; [simpl in Hlen; lia |].
  inversion Hall as [| ? ? Hl Hall']; subst. simpl in Hl.
  destruct d as [| [k' l'] d].
  - cbn [map Encoder.join]. rewrite encode_item_app. cbn [tl].
    now apply object_loop_last.
  - cbn [map]. rewrite join_cons2. rewrite <- app_assoc.
    rewrite encode_item_app. cbn [tl]. rewrite <- app_assoc.
    specialize (IH ltac:(congruence) fuel f (pairs ++ [back_item (k, l)])
                   rest ltac:(simpl in *; lia) Hall').
    cbn [map] in IH.
    assert (Hhead : exists r,
               Encoder.join Encoder.item_separator
                 (Encoder.encode_item (k', l') :: map Encoder.encode_item d)
                 ++ "}"%char :: rest = dquote :: r)
      by (destruct d; eexists; reflexivity).
    destruct Hhead as [r Hr]. rewrite Hr in *. cbn [tl] in IH.
    change (Encoder.item_separator ++ dquote :: r)
      with (","%char :: " "%char :: dquote :: r).
    rewrite object_loop_next by exact Hl.
    rewrite IH. rewrite <- app_assoc. reflexivity.
Qed.

Lemma length_join_part sep (parts : list text) p :
  In p parts ->
  (List.length p <= List.length (Encoder.join sep parts))%nat.
Proof.
  induction parts as [| q parts IH]; [intros [] |].
  intros [-> | Hin].
  - destruct parts; simpl; rewrite ?length_app; lia.
  - specialize (IH Hin). destruct parts as [| q' parts]; [destruct Hin |].
    rewrite join_cons2, !length_app. lia.
Qed.

Lemma length_join_count sep (parts : list text) :
  Forall (fun p => (1 <= List.length p)%nat) parts ->
  (List.length parts <= List.length (Encoder.join sep parts))%nat.
Proof.
  induction 1 as [| q parts Hq Hall IH]; [simpl; lia |].
  destruct parts as [| q' parts]; [simpl; lia |].
  rewrite join_cons2, !length_app.
  change (List.length (q :: q' :: parts))
    with (S (List.length (q' :: parts))).
  unfold text in *. lia.
Qed.

Lemma length_encode_list (l : list pystr) :
  (List.length l <= List.length (Encoder.encode_list l))%nat.
Proof.
  unfold Encoder.encode_list. cbn [List.length]. rewrite length_app.
  assert (H : (List.length (map Encoder.py_encode_basestring_ascii l)
               <= List.length
                    (Encoder.join Encoder.item_separator
                       (map Encoder.py_encode_basestring_ascii l)))%nat).
  { apply length_join_count. apply Forall_forall. intros p Hp.
    apply in_map_iff in Hp. destruct Hp as (x & <- & _). simpl. lia. }
  rewrite length_map in H. unfold text in *. lia.
Qed.

Lemma length_encode_item (kv : pystr * list pystr) :
  (List.length (snd kv) < List.length (Encoder.encode_item kv))%nat.
Proof.
  unfold Encoder.encode_item. rewrite !length_app.
  pose proof (length_encode_list (snd kv)).
  assert (1 <= List.length (Encoder.py_encode_basestring_ascii (fst kv)))%nat
    by (simpl; lia).
  unfold text in *. lia.
Qed.

(** [json.loads] accepts every text [json.dumps] writes for a dict of
    lists of [str], and reads back each string as [read_back] tells. *)
Lemma decode_encode_dict (d : list (pystr * list pystr)) :
  decode (Encoder.encode_dict d)
  = Some (PDict (dict_of_pairs pystr_eq_dec (map back_item d))).
Proof.
  unfold decode, Encoder.encode_dict.
  rewrite skip_ws_stop by reflexivity.
  set (body := Encoder.join Encoder.item_separator
                            (map Encoder.encode_item d)).
  change (List.length ("{"%char :: body ++ ["}"%char]))
    with (S (List.length (body ++ ["}"%char]))).
  rewrite length_app, Nat.add_comm. cbn [List.length Nat.add].
  change (scan_once (S (S (S (List.length body))))
                    ("{"%char :: body ++ ["}"%char]))
    with (JSONObject (scan_once (S (S (List.length body))))
                     (S (S (List.length body))) (body ++ ["}"%char])).
  destruct d as [| kv d]; [reflexivity |].
  unfold JSONObject.
  assert (Hhead : exists r, body ++ ["}"%char] = dquote :: r)
    by (subst body; destruct kv, d; eexists; reflexivity).
  destruct Hhead as [r Hr]. rewrite Hr.
  rewrite skip_ws_stop by reflexivity. cbv beta iota.
  cbn [Ascii.eqb Bool.eqb dquote].
  change r with (tl (dquote :: r)). rewrite <- Hr. subst body.
  rewrite object_loop_items.
  - reflexivity.
  - discriminate.
  - assert (H : (List.length (map Encoder.encode_item (kv :: d))
                 <= List.length
                      (Encoder.join Encoder.item_separator
                         (map Encoder.encode_item (kv :: d))))%nat).
    { apply length_join_count. apply Forall_forall. intros p Hp.
      apply in_map_iff in Hp. destruct Hp as (x & <- & _).
      pose proof (length_encode_item x). lia. }
    rewrite length_map in H. unfold text in *. lia.
  - apply Forall_forall. intros x Hx.
    pose proof (length_encode_item x).
    pose proof (@length_join_part Encoder.item_separator
                  (map Encoder.encode_item (kv :: d))
                  (Encoder.encode_item x) (in_map _ _ _ Hx)).
    unfold text in *. lia.
Qed.

Lemma loads_dumps (d : list (pystr * list pystr)) :
  json_loads (json_dumps d)
  = Some (PDict (dict_of_pairs pystr_eq_dec (map back_item d))).
Proof.
  unfold json_loads, json_dumps.
  rewrite list_ascii_of_string_of_list_ascii. apply decode_encode_dict.
Qed.
End ContainerFacts.

(** ** The serialized text, read again *)

Lemma in_fold_dict_set K V (K_eq_dec : forall x y : K, {x = y} + {x <> y})
      (pairs : list (K * V)) (d : dict K V) kv :
  In kv (fold_left (fun d kv => dict_set K_eq_dec d (fst kv) (snd kv))
                   pairs d) ->
  In kv d \/ In kv pairs.
Proof.
  revert d. induction pairs as [| [k v] pairs IH]; simpl; intros d Hin;
    [now left |].
  destruct (IH _ Hin) as [Hd | Hp]; [| tauto].
  destruct kv as [k0 v0]. apply in_dict_set in Hd.
  destruct Hd as [[-> ->] | Hd]; tauto.
Qed.

Lemma loads_dumps_shape (d : list (pystr * list pystr)) :
  exists v, json_loads (json_dumps d) = Some v /\ object_of_str_arrays v.
Proof.
  eexists. split; [apply loads_dumps |].
  eexists. split; [reflexivity |].
  apply Forall_forall. intros kv Hkv.
  apply in_fold_dict_set in Hkv. destruct Hkv as [[] | Hkv].
  apply in_map_iff in Hkv. destruct Hkv as ([k l] & <- & _).
  exists (map read_back l). reflexivity.
Qed.

Lemma loads_dumps_plain (d : list (pystr * list pystr)) :
  dict_wf d ->
  Forall (fun kv => plain_str (fst kv) /\ Forall plain_str (snd kv)) d ->
  json_loads (json_dumps d) = Some (as_pyval d).
Proof.
  intros Hwf Hplain. rewrite loads_dumps. unfold as_pyval.
  assert (Hmap : map back_item d
                 = map (fun kv => (fst kv, PList (map PStr (snd kv)))) d).
  { apply map_ext_in. intros [k l] Hin.
    rewrite Forall_forall in Hplain. destruct (Hplain _ Hin) as [Hk Hl].
    unfold back_item, back_list. simpl in *.
    rewrite (read_back_plain Hk). do 3 f_equal.
    rewrite <- (map_id l) at 2. apply map_ext_in. intros x Hx.
    rewrite Forall_forall in Hl. apply read_back_plain. now apply Hl. }
  rewrite Hmap. rewrite dict_of_pairs_NoDup; [reflexivity |].
  unfold keys. rewrite map_map. simpl. exact Hwf.
Qed.

(** C7.  Whenever the helper returns, the text it returns is accepted by
    [json.loads] and is read as an object, its keys strings, each of whose
    values is an array of strings. *)
Theorem output_shape W E (morphy : lookup W E) form pos (w w' : W)
        (out : string) :
  morphy_to_json morphy form pos w = (Returns out, w') ->
  exists v, json_loads out = Some v /\ object_of_str_arrays v.
Proof.
  rewrite morphy_to_json_unfold.
  destruct (morphy form (with_default None pos) w) as [[result | e] w0];
    simpl; intros H; inversion H; subst.
  apply loads_dumps_shape.
Qed.

Lemma output_shape_witness :
  morphy_to_json (constant_lookup (E := unit) running_result)
                 (lit "running") Omitted tt
  = (Returns running_output, tt)
  /\ exists v, json_loads running_output = Some v /\ object_of_str_arrays v.
Proof.
  split; [reflexivity |].
  apply (@output_shape unit unit (constant_lookup running_result)
           (lit "running") Omitted tt tt running_output).
  reflexivity.
Defined.

(** C2, as stated, fails: for the mapping
    [{None: {'run'}, 'v': {'run'}, 'null': ['nil', 'void']}] the text read
    again has two entries, not three; the members kept under null are those
    of the later key and those of [None] are lost. *)
Lemma round_trip_loses_entry :
  exists out,
    morphy_to_json (constant_lookup (E := unit) collision_result)
                   (lit "running") Omitted tt = (Returns out, tt)
    /\ json_loads out
       = Some (as_pyval [(lit "null", [lit "nil"; lit "void"]);
                         (lit "v", [lit "run"])])
    /\ json_loads out <> Some (as_pyval (map image collision_result)).
Proof.
  eexists. split; [reflexivity |]. split; [vm_compute; reflexivity |].
  vm_compute. discriminate.
Qed.

(** A key made of a high and a low surrogate is read again as the single
    code point they encode. *)
Lemma round_trip_joins_surrogates :
  exists out,
    morphy_to_json (constant_lookup (E := unit) surrogate_result)
                   (lit "x") Omitted tt = (Returns out, tt)
    /\ json_loads out = Some (PDict [([0x1f600%N], PList [])])
    /\ json_loads out <> Some (as_pyval (map image surrogate_result)).
Proof.
  eexists. split; [reflexivity |]. split; [vm_compute; reflexivity |].
  vm_compute. discriminate.
Qed.

(** C2, amended.  When the mapping returned by the lookup does not hold both
    the key [None] and the key null, and no string in it has a high
    surrogate directly followed by a low surrogate, the text the helper
    returns is read again by [json.loads] as the mapping with the same keys
    in the same order, null standing for [None], each with the list of the
    members of its collection in iteration order: no key and no entry is
    lost. *)
Theorem round_trip W E (morphy : lookup W E) form pos (w w' : W)
        (result : lookup_result) :
  morphy form (with_default None pos) w = (Returns result, w') ->
  dict_wf result ->
  ~ has_null_collision result ->
  plain_result result ->
  exists out,
    morphy_to_json morphy form pos w = (Returns out, w')
    /\ json_loads out = Some (as_pyval (map image result)).
Proof.
  intros Hcall Hwf Hcol Hplain.
  eexists. split; [exact (morphy_to_json_returns morphy form pos w Hcall) |].
  assert (Hnd : NoDup (map key_expr (keys result)))
    by (apply key_expr_NoDup; assumption).
  rewrite (dict_comprehension_injective _ Hnd).
  apply loads_dumps_plain.
  - unfold dict_wf. now rewrite keys_image.
  - apply Forall_forall. intros kv Hkv. apply in_map_iff in Hkv.
    destruct Hkv as (x & <- & Hx). unfold plain_result in Hplain.
    rewrite Forall_forall in Hplain. exact (Hplain x Hx).
Qed.

Lemma running_result_plain : plain_result running_result.
Proof.
  unfold plain_result, running_result, plain_str, valid_str.
  repeat (constructor; simpl); try reflexivity.
Qed.

Lemma running_result_no_collision : ~ has_null_collision running_result.
Proof. intros [_ H]. simpl in H. intuition discriminate. Qed.

Lemma round_trip_witness :
  dict_wf running_result
  /\ ~ has_null_collision running_result
  /\ plain_result running_result
  /\ exists out,
       morphy_to_json (constant_lookup (E := unit) running_result)
                      (lit "running") Omitted tt = (Returns out, tt)
       /\ json_loads out
          = Some (PDict [(lit "null", PList [PStr (lit "run")]);
                         (lit "v", PList [PStr (lit "run")])]).
Proof.
  split; [exact running_result_wf |].
  split; [exact running_result_no_collision |].
  split; [exact running_result_plain |].
  apply (@round_trip unit unit (constant_lookup running_result)
           (lit "running") Omitted tt tt running_result eq_refl
           running_result_wf running_result_no_collision
           running_result_plain).
Defined.

(** * The helper and its lookup *)

(** C1.  When the lookup returns a mapping, the helper returns the
    serialization of its transformed image.  The key [None] becomes the text
    null and every other key is kept; the list made of a set, of a list or
    of a tuple holds its members in iteration order; every key of the
    mapping has its substituted key in the image; every entry of the image
    pairs the substituted key of an entry of the mapping with the list of
    the members of its collection; and unless the mapping holds both [None]
    and the text null as keys, the image has one entry for each entry of the
    mapping, in the mapping's order. *)
Theorem transformed_image W E (morphy : lookup W E) form pos (w w' : W)
        (result : lookup_result) :
  morphy form (with_default None pos) w = (Returns result, w') ->
  dict_wf result ->
  morphy_to_json morphy form pos w
  = (Returns (json_dumps (dict_comprehension result)), w')
  /\ key_expr None = lit "null"
  /\ (forall s, key_expr (Some s) = s)
  /\ (forall members, py_list (PySet members) = members)
  /\ (forall members, py_list (PyList members) = members)
  /\ (forall members, py_list (PyTuple members) = members)
  /\ (forall k, In k (keys result) ->
                In (key_expr k) (keys (dict_comprehension result)))
  /\ (forall s l, In (s, l) (dict_comprehension result) ->
                  exists k v, In (k, v) result
                              /\ s = key_expr k /\ l = py_list v)
  /\ (~ has_null_collision result ->
      dict_comprehension result
      = map (fun kv => (key_expr (fst kv), py_list (snd kv))) result).
Proof.
  intros Hcall Hwf. repeat split.
  - exact (morphy_to_json_returns morphy form pos w Hcall).
  - intros k. apply dict_comprehension_keys_complete.
  - intros s l. apply dict_comprehension_sound.
  - intros Hcol. apply dict_comprehension_injective.
    apply key_expr_NoDup; assumption.
Qed.

Lemma transformed_image_witness :
  dict_wf running_result_mixed
  /\ morphy_to_json (constant_lookup (E := unit) running_result_mixed)
                    (lit "running") Omitted tt
     = (Returns running_output, tt)
  /\ dict_comprehension running_result_mixed
     = [(lit "null", [lit "run"]); (lit "v", [lit "run"])].
Proof.
  assert (Hwf : dict_wf running_result_mixed)
    by (unfold dict_wf; simpl; repeat constructor; simpl;
        intuition discriminate).
  destruct (@transformed_image unit unit
              (constant_lookup running_result_mixed)
              (lit "running") Omitted tt tt running_result_mixed eq_refl
              Hwf) as (Hout & _ & _ & Hset & _ & Htuple & _ & _ & Himg).
  split; [exact Hwf |]. split; [exact Hout |].
  rewrite Himg.
  - unfold running_result_mixed. cbn [map fst snd].
    rewrite Hset, Htuple. reflexivity.
  - intros [_ Hnull]. simpl in Hnull. intuition discriminate.
Defined.

(** C8.  Every call of the helper makes exactly one call of the lookup, after
    whatever calls were made before: with the given form and the part of
    speech that was passed, whatever it is, or with the given form and
    [None] when the part of speech was left out.  The outcome is that of
    this call, a returned mapping serialized, and the world is as this call
    left it. *)
Theorem delegation W E (morphy : lookup W E) form (w : W)
        (log : list call) :
  (forall p : option pystr,
      morphy_to_json (logged morphy) form (Passed p) (w, log)
      = (outcome_map (fun r => json_dumps (dict_comprehension r))
                     (fst (morphy form p w)),
         (snd (morphy form p w), log ++ [(form, p)])))
  /\ morphy_to_json (logged morphy) form Omitted (w, log)
     = (outcome_map (fun r => json_dumps (dict_comprehension r))
                    (fst (morphy form None w)),
        (snd (morphy form None w), log ++ [(form, None)])).
Proof.
  split; [intros p |];
    rewrite morphy_to_json_unfold; unfold logged; simpl;
    match goal with
    | |- context [morphy form ?q w] =>
        destruct (morphy form q w) as [o w0]
    end; reflexivity.
Qed.

Lemma delegation_witness :
  morphy_to_json (logged echo_lookup) (lit "ran") (Passed (Some (lit "v")))
                 (tt, [(lit "run", None)])
  = (Returns ("{" ++ quoted "v" ++ ": [" ++ quoted "ran" ++ "]}")%string,
     (tt, [(lit "run", None); (lit "ran", Some (lit "v"))]))
  /\ morphy_to_json (logged echo_lookup) (lit "ran") Omitted
                    (tt, [(lit "run", None)])
     = (Returns ("{" ++ quoted "null" ++ ": [" ++ quoted "ran" ++ "]}")%string,
        (tt, [(lit "run", None); (lit "ran", None)])).
Proof.
  destruct (@delegation unit unit echo_lookup (lit "ran") tt
              [(lit "run", None)]) as [Hpassed Homitted].
  split; [exact (Hpassed (Some (lit "v"))) | exact Homitted].
Defined.

(** ** Iteration order and the returned text *)

Lemma same_iteration_image (r1 r2 : lookup_result) :
  same_iteration r1 r2 -> map image r1 = map image r2.
Proof.
  unfold same_iteration, keys. revert r2.
  induction r1 as [| [k1 v1] r1 IH]; intros [| [k2 v2] r2] [Hk Hv];
    try discriminate; [reflexivity |].
  simpl in Hk, Hv. injection Hk as Hk Hks. injection Hv as Hv Hvs.
  simpl. unfold image at 1 3. simpl. rewrite Hk, Hv. f_equal.
  apply IH. now split.
Qed.

(** C5, as stated, fails: a lookup may answer every call with the same value,
    a dict with the one key [None] and the set of run and ran, and the set
    still be iterated in another order at another call; the two texts then
    differ. *)
Lemma set_order_changes_output :
  deterministic_value set_lookup
  /\ fst (morphy_to_json set_lookup (lit "running") Omitted true)
     = Returns ("{" ++ quoted "null" ++ ": [" ++ quoted "run" ++ ", "
                    ++ quoted "ran" ++ "]}")%string
  /\ fst (morphy_to_json set_lookup (lit "running") Omitted false)
     = Returns ("{" ++ quoted "null" ++ ": [" ++ quoted "ran" ++ ", "
                    ++ quoted "run" ++ "]}")%string
  /\ fst (morphy_to_json set_lookup (lit "running") Omitted true)
     <> fst (morphy_to_json set_lookup (lit "running") Omitted false).
Proof.
  split; [intros form pos [|] [|]; reflexivity |].
  split; [reflexivity |]. split; [reflexivity |].
  vm_compute. discriminate.
Qed.

(** C5, amended.  With a lookup whose answer to the same form and part of
    speech has, at every call, the same keys in the same order and for each
    key the same members in the same iteration order (or is the same
    exception), two invocations with the same form and part of speech, in
    whatever worlds they run, have the same outcome: the same output string,
    character for character, whatever kinds of collection hold the
    members. *)
Theorem serialization_deterministic W E (morphy : lookup W E) :
  deterministic_in_order morphy ->
  forall form pos (w1 w2 : W),
    fst (morphy_to_json morphy form pos w1)
    = fst (morphy_to_json morphy form pos w2).
Proof.
  intros Hdet form pos w1 w2. rewrite !morphy_to_json_unfold. cbn [fst].
  specialize (Hdet form (with_default None pos) w1 w2).
  destruct (fst (morphy form (with_default None pos) w1)) as [r1 | e1],
           (fst (morphy form (with_default None pos) w2)) as [r2 | e2];
    simpl in Hdet; try contradiction; simpl.
  - rewrite !dict_comprehension_pairs.
    now rewrite (same_iteration_image Hdet).
  - now subst.
Qed.

Lemma serialization_deterministic_witness :
  deterministic_in_order kind_lookup
  /\ fst (morphy_to_json kind_lookup (lit "running") Omitted true)
     = Returns running_output
  /\ fst (morphy_to_json kind_lookup (lit "running") Omitted false)
     = Returns running_output.
Proof.
  assert (Hd : deterministic_in_order kind_lookup)
    by (intros form pos [|] [|]; simpl; split; reflexivity).
  split; [exact Hd |].
  split; [reflexivity |].
  rewrite <- (@serialization_deterministic bool unit kind_lookup Hd
                (lit "running") Omitted true false).
  reflexivity.
Defined.

(** ** The helper on shared objects *)

Section StoreFacts.
Variables W E : Type.
Variables AttributeError TypeError : E.
Implicit Types (s : Store.state W) (its : list (pos_key * Store.ref)).

Lemma encode_all_MStr (l : list pystr) :
  Store.encode_all Store.encode_member (map Store.MStr l)
  = Some (map Encoder.py_encode_basestring_ascii l).
Proof.
  induction l as [| x l IH]; [reflexivity |].
  simpl. now rewrite IH.
Qed.

Lemma encode_members_typed (l : list pystr) :
  Store.encode_members (map Store.MStr l) = Some (Encoder.encode_list l).
Proof. unfold Store.encode_members. now rewrite encode_all_MStr. Qed.

Lemma encode_all_typed (d : dict pystr (list pystr)) :
  Store.encode_all Store.encode_entry (Store.typed d)
  = Some (map Encoder.encode_item d).
Proof.
  induction d as [| [k l] d IH]; [reflexivity |].
  cbn [Store.typed map Store.encode_all] in *.
  unfold Store.encode_entry at 1. cbn [fst snd].
  rewrite encode_members_typed. fold (Store.typed d). now rewrite IH.
Qed.

(** On lists of [str] the serialization of the store is [json_dumps]. *)
Lemma dumps_typed (d : dict pystr (list pystr)) s :
  Store.dumps TypeError (Store.typed d) s = (Returns (json_dumps d), s).
Proof.
  unfold Store.dumps, Store.encode_object. now rewrite encode_all_typed.
Qed.

Lemma dict_set_typed (d : dict pystr (list pystr)) k l :
  Store.typed (dict_set pystr_eq_dec d k l)
  = dict_set pystr_eq_dec (Store.typed d) k (map Store.MStr l).
Proof.
  induction d as [| [k' l'] d IH]; [reflexivity |].
  simpl. destruct (pystr_eq_dec k' k); [reflexivity |].
  simpl. f_equal. exact IH.
Qed.

(** On a mapping that is as the lookup's interface says, the comprehension
    reads the store, changes nothing and computes the comprehension of the
    mapping's value. *)
Lemma comprehension_typed its :
  forall (d : dict pystr (list pystr)) s result,
    Store.read_items (snd s) its = Some result ->
    Store.comprehension TypeError its (Store.typed d) s
    = (Returns
         (Store.typed
            (fold_left (fun d kv => dict_set pystr_eq_dec d
                                             (key_expr (fst kv))
                                             (py_list (snd kv))) result d)),
       s).
Proof.
  induction its as [| [k v] its IH]; intros d s result Hread.
  - inversion Hread. reflexivity.
  - cbn [Store.read_items] in Hread.
    cbn [Store.comprehension]. unfold bind, Store.list_of.
    destruct (Store.deref (snd s) v) as [es | c | ms | rem |];
      try discriminate.
    destruct (Store.read_items (snd s) its) as [r |] eqn:Hr;
      [| discriminate].
    inversion Hread; subst. rewrite <- dict_set_typed.
    rewrite (IH _ _ r Hr). reflexivity.
Qed.

Lemma store_returns (morphy : Store.lookup W E) form pos s r s1 result :
  morphy form (with_default None pos) s = (Returns r, s1) ->
  Store.snapshot (snd s1) r = Some result ->
  Store.morphy_to_json AttributeError TypeError morphy form pos s
  = (Returns (json_dumps (dict_comprehension result)), s1).
Proof.
  intros Hcall Hsnap.
  unfold Store.morphy_to_json, bind, Store.items.
  rewrite Hcall. unfold Store.snapshot in Hsnap.
  destruct (Store.deref (snd s1) r) as [es | c | ms | rem |];
    try discriminate.
  change (@nil (pystr * list Store.member)) with (Store.typed []).
  rewrite (comprehension_typed es [] s1 Hsnap). apply dumps_typed.
Qed.

(** Where no value is a one-shot iterator, the comprehension changes
    nothing, whether it ends with a dict or with an exception. *)
Lemma comprehension_frame its :
  forall (d : dict pystr (list Store.member)) s,
    forallb (fun kv => match Store.deref (snd s) (snd kv) with
                       | Store.OIter _ => false
                       | _ => true
                       end) its = true ->
    snd (Store.comprehension TypeError its d s) = s.
Proof.
  induction its as [| [k v] its IH]; intros d s Hreit; [reflexivity |].
  cbn [forallb snd] in Hreit. apply andb_prop in Hreit.
  destruct Hreit as [Hv Hrest].
  cbn [Store.comprehension]. unfold bind, Store.list_of.
  destruct (Store.deref (snd s) v) as [es | c | ms | rem |];
    try discriminate; try reflexivity; now apply IH.
Qed.

Lemma store_frame (morphy : Store.lookup W E) form pos s r s1 :
  morphy form (with_default None pos) s = (Returns r, s1) ->
  Store.reiterable (snd s1) r = true ->
  snd (Store.morphy_to_json AttributeError TypeError morphy form pos s) = s1.
Proof.
  intros Hcall Hreit.
  unfold Store.morphy_to_json, bind, Store.items.
  rewrite Hcall. unfold Store.reiterable in Hreit.
  destruct (Store.deref (snd s1) r) as [es | c | ms | rem |];
    try reflexivity.
  pose proof (comprehension_frame es [] s1 Hreit) as Hframe.
  destruct (Store.comprehension TypeError es [] s1) as [[d | e] s2];
    simpl in Hframe; subst; [| reflexivity].
  unfold Store.dumps. destruct (Store.encode_object d); reflexivity.
Qed.

Lemma store_raises (morphy : Store.lookup W E) form pos s e s1 :
  morphy form (with_default None pos) s = (Raises e, s1) ->
  Store.morphy_to_json AttributeError TypeError morphy form pos s
  = (Raises e, s1).
Proof.
  intros Hcall. unfold Store.morphy_to_json, bind. now rewrite Hcall.
Qed.
End StoreFacts.

(** The helper's own failures, when the lookup's answer is not what its
    interface says: a list in place of the mapping, [None] as a value, a
    member [json] does not serialize.  A dict as a value is read as the
    list of its keys. *)
Lemma helper_own_failures :
  Store.morphy_to_json AttributeError TypeError stored_lookup
                       (lit "running") Omitted (tt, list_store)
  = (Raises AttributeError, (tt, list_store))
  /\ Store.morphy_to_json AttributeError TypeError stored_lookup
                          (lit "running") Omitted (tt, none_value_store)
     = (Raises TypeError, (tt, none_value_store))
  /\ Store.morphy_to_json AttributeError TypeError stored_lookup
                          (lit "running") Omitted (tt, object_member_store)
     = (Raises TypeError, (tt, object_member_store))
  /\ Store.morphy_to_json AttributeError TypeError stored_lookup
                          (lit "running") Omitted (tt, dict_value_store)
     = (Returns ("{" ++ quoted "a" ++ ": [" ++ quoted "v" ++ ", null]}")%string,
        (tt, dict_value_store)).
Proof. repeat split. Qed.

(** C6.  When the lookup raises, the helper ends with the same exception and
    the world as the lookup left it: nothing is caught, nothing is
    translated.  The helper adds no failure of its own: when the lookup
    returns a mapping that is as its interface says (keys [None] or
    strings, values sets, lists or tuples of strings), the helper returns a
    text; so an exception the helper ends with is the lookup's, unless the
    lookup returned something else than such a mapping. *)
Theorem error_propagation W E (morphy : lookup W E)
        (AttributeError TypeError : E) (shared : Store.lookup W E)
        form pos (w w' : W) (s s' : Store.state W) (e : E) :
  (morphy_to_json morphy form pos w = (Raises e, w')
   <-> morphy form (with_default None pos) w = (Raises e, w'))
  /\ (shared form (with_default None pos) s = (Raises e, s') ->
      Store.morphy_to_json AttributeError TypeError shared form pos s
      = (Raises e, s'))
  /\ (forall r result,
         shared form (with_default None pos) s = (Returns r, s') ->
         Store.snapshot (snd s') r = Some result ->
         Store.morphy_to_json AttributeError TypeError shared form pos s
         = (Returns (json_dumps (dict_comprehension result)), s'))
  /\ (Store.morphy_to_json AttributeError TypeError shared form pos s
      = (Raises e, s') ->
      shared form (with_default None pos) s = (Raises e, s')
      \/ exists r s1,
           shared form (with_default None pos) s = (Returns r, s1)
           /\ Store.snapshot (snd s1) r = None).
Proof.
  split.
  { rewrite morphy_to_json_unfold.
    destruct (morphy form (with_default None pos) w) as [[r | e0] w0]; simpl;
      split; intros H; inversion H; subst; reflexivity. }
  split; [apply store_raises |].
  split; [intros r result; apply store_returns |].
  intros Hraise.
  destruct (shared form (with_default None pos) s) as [[r | e0] s1] eqn:Hcall.
  - right. exists r, s1. split; [reflexivity |].
    destruct (Store.snapshot (snd s1) r) as [result |] eqn:Hsnap;
      [| reflexivity].
    rewrite (store_returns AttributeError TypeError shared form pos s
               Hcall Hsnap) in Hraise.
    discriminate.
  - left. rewrite (store_raises AttributeError TypeError shared form pos s
                     Hcall) in Hraise.
    inversion Hraise; subst. reflexivity.
Qed.

Lemma error_propagation_witness :
  morphy_to_json (failing_lookup LookupError) (lit "running") Omitted tt
  = (Raises LookupError, tt)
  /\ Store.morphy_to_json AttributeError TypeError
                          (failing_stored_lookup LookupError)
                          (lit "running") Omitted (tt, shared_store)
     = (Raises LookupError, (tt, shared_store))
  /\ Store.morphy_to_json AttributeError TypeError stored_lookup
                          (lit "running") Omitted (tt, shared_store)
     = (Returns running_output, (tt, shared_store)).
Proof.
  destruct (@error_propagation unit string (failing_lookup LookupError)
              AttributeError TypeError
              (failing_stored_lookup LookupError)
              (lit "running") Omitted tt tt
              (tt, shared_store) (tt, shared_store) LookupError)
    as (Hpure & Hstore & _ & _).
  split; [apply (proj2 Hpure); reflexivity |].
  split; [apply Hstore; reflexivity |].
  destruct (@error_propagation unit string (failing_lookup LookupError)
              AttributeError TypeError stored_lookup
              (lit "running") Omitted tt tt
              (tt, shared_store) (tt, shared_store) LookupError)
    as (_ & _ & Hreturns & _).
  apply (Hreturns 0 [(None, PySet [lit "run"]);
                     (Some (lit "v"), PySet [lit "run"])]);
    reflexivity.
Defined.

(** C9, as stated, fails.  The lookup below keeps one dict and hands it out
    at every call, changing nothing itself; the value of the dict is a
    one-shot iterator.  A call of the helper uses the iterator up, so the
    lookup's mapping is not as it was, and the same call made again returns
    another text than it returns when made alone. *)
Lemma iterator_value_is_used_up :
  Store.morphy_to_json AttributeError TypeError stored_lookup
                       (lit "running") Omitted (tt, iterator_store)
  = (Returns null_run_output, (tt, exhausted_store))
  /\ Store.morphy_to_json AttributeError TypeError stored_lookup
                          (lit "running") Omitted (tt, exhausted_store)
     = (Returns null_empty_output, (tt, exhausted_store))
  /\ iterator_store <> exhausted_store
  /\ null_run_output <> null_empty_output.
Proof. repeat split; discriminate. Qed.

(** A lookup with a memory shows through the helper as well: the text of an
    invocation depends on whether another one came before. *)
Lemma lookup_memory_shows_through :
  fst (morphy_to_json counting_lookup (lit "running") Omitted 0)
  = Returns "{}"%string
  /\ fst (morphy_to_json counting_lookup (lit "running") Omitted
                         (snd (morphy_to_json counting_lookup (lit "ran")
                                              Omitted 0)))
     = Returns null_empty_output.
Proof. split; reflexivity. Qed.

(** C9, amended.  The helper keeps no state of its own, and unless a value
    of the returned mapping is a one-shot iterator it changes no object:
    whether the lookup raises or returns, world and store, the returned
    mapping and its values with them, are after the call exactly as the
    lookup's call left them.  The outcome is the lookup's exception, or for
    a mapping of sets, lists and tuples of strings the serialization of its
    value.  Another invocation made after it therefore has the outcome it
    has after the lookup's call alone, and the outcome it has when made
    alone whenever the lookup's call changes nothing. *)
Theorem stateless_no_side_effects W E (AttributeError TypeError : E)
        (shared : Store.lookup W E) form pos form' pos'
        (s s1 : Store.state W) (o : outcome E Store.ref) :
  shared form (with_default None pos) s = (o, s1) ->
  (forall r, o = Returns r -> Store.reiterable (snd s1) r = true) ->
  snd (Store.morphy_to_json AttributeError TypeError shared form pos s) = s1
  /\ (forall e, o = Raises e ->
                fst (Store.morphy_to_json AttributeError TypeError shared
                                          form pos s) = Raises e)
  /\ (forall r result,
         o = Returns r -> Store.snapshot (snd s1) r = Some result ->
         fst (Store.morphy_to_json AttributeError TypeError shared
                                   form pos s)
         = Returns (json_dumps (dict_comprehension result)))
  /\ Store.morphy_to_json
       AttributeError TypeError shared form' pos'
       (snd (Store.morphy_to_json AttributeError TypeError shared
                                  form pos s))
     = Store.morphy_to_json AttributeError TypeError shared form' pos' s1
  /\ (s1 = s ->
      Store.morphy_to_json
        AttributeError TypeError shared form' pos'
        (snd (Store.morphy_to_json AttributeError TypeError shared
                                   form pos s))
      = Store.morphy_to_json AttributeError TypeError shared form' pos' s).
Proof.
  intros Hcall Hreit.
  assert (Hframe : snd (Store.morphy_to_json AttributeError TypeError shared
                                             form pos s) = s1).
  { destruct o as [r | e].
    - apply (store_frame AttributeError TypeError shared form pos s Hcall).
      now apply Hreit.
    - now rewrite (store_raises AttributeError TypeError shared form pos s
                     Hcall). }
  split; [exact Hframe |].
  split.
  { intros e ->.
    now rewrite (store_raises AttributeError TypeError shared form pos s
                   Hcall). }
  split.
  { intros r result -> Hsnap.
    now rewrite (store_returns AttributeError TypeError shared form pos s
                   Hcall Hsnap). }
  rewrite Hframe. split; [reflexivity |]. intros ->. reflexivity.
Qed.

Lemma stateless_no_side_effects_witness :
  Store.reiterable shared_store 0 = true
  /\ Store.morphy_to_json AttributeError TypeError stored_lookup
                          (lit "ran") (Passed (Some (lit "v")))
                          (tt, shared_store)
     = (Returns running_output, (tt, shared_store))
  /\ Store.morphy_to_json
       AttributeError TypeError stored_lookup (lit "running") Omitted
       (snd (Store.morphy_to_json AttributeError TypeError stored_lookup
                                  (lit "ran") (Passed (Some (lit "v")))
                                  (tt, shared_store)))
     = Store.morphy_to_json AttributeError TypeError stored_lookup
                            (lit "running") Omitted (tt, shared_store).
Proof.
  assert (Hreit : forall r : Store.ref,
             @Returns string Store.ref 0 = Returns r ->
             Store.reiterable (snd (tt, shared_store)) r = true)
    by (intros r Hr; inversion Hr; reflexivity).
  destruct (@stateless_no_side_effects unit string AttributeError TypeError
              stored_lookup (lit "ran") (Passed (Some (lit "v")))
              (lit "running") Omitted (tt, shared_store) (tt, shared_store)
              (Returns 0) eq_refl Hreit)
    as (Hframe & _ & Hvalue & _ & Halone).
  split; [reflexivity |].
  split; [| exact (Halone eq_refl)].
  specialize (Hvalue 0 [(None, PySet [lit "run"]);
                        (Some (lit "v"), PySet [lit "run"])]
                     eq_refl eq_refl).
  destruct (Store.morphy_to_json AttributeError TypeError stored_lookup
              (lit "ran") (Passed (Some (lit "v"))) (tt, shared_store))
    as [out st]. simpl in Hframe, Hvalue. now subst.
Defined.

(** ** The text of a mapping with both keys *)

Lemma length_dict_set K V (K_eq_dec : forall x y : K, {x = y} + {x <> y})
      (d : dict K V) k v :
  (List.length (dict_set K_eq_dec d k v) <= S (List.length d))%nat.
Proof.
  induction d as [| [k' v'] d IH]; simpl; [lia |].
  destruct (K_eq_dec k' k); simpl; lia.
Qed.

Lemma length_dict_of_pairs K V
      (K_eq_dec : forall x y : K, {x = y} + {x <> y})
      (pairs : list (K * V)) :
  (List.length (dict_of_pairs K_eq_dec pairs) <= List.length pairs)%nat.
Proof.
  induction pairs as [| kv pairs IH] using rev_ind; [simpl; lia |].
  unfold dict_of_pairs. rewrite fold_left_app. simpl.
  fold (dict_of_pairs K_eq_dec pairs). rewrite length_app. simpl.
  pose proof (length_dict_set K_eq_dec (dict_of_pairs K_eq_dec pairs)
                              (fst kv) (snd kv)).
  lia.
Qed.

(** C10.  When the mapping returned by the lookup holds both the key [None]
    and the key null, the substitution sends both to the same text: the
    transformed mapping has a single null entry, at the place of the earlier
    of the two and with the members of the later one, and every other entry
    is as in the mapping.  The returned text is an opening brace, the
    entries of this mapping, one fewer than the lookup's result has, each
    written as by [json] and a comma and a space between two of them, and a
    closing brace; [json.loads] reads from it an object with fewer entries
    than the lookup's result, and when no string has adjacent surrogates
    exactly the transformed mapping. *)
Theorem null_key_collision W E (morphy : lookup W E) form pos (w w' : W)
        (result : lookup_result) :
  morphy form (with_default None pos) w = (Returns result, w') ->
  dict_wf result ->
  has_null_collision result ->
  exists A B C k1 v1 k2 v2 out,
    result = A ++ (k1, v1) :: B ++ (k2, v2) :: C
    /\ k1 <> k2
    /\ key_expr k1 = lit "null" /\ key_expr k2 = lit "null"
    /\ dict_comprehension result
       = map image A ++ (lit "null", py_list v2) :: map image B ++ map image C
    /\ (forall l, In (lit "null", l) (dict_comprehension result) ->
                  l = py_list v2)
    /\ dict_get pystr_eq_dec (dict_comprehension result) (lit "null")
       = Some (py_list v2)
    /\ S (List.length (dict_comprehension result)) = List.length result
    /\ morphy_to_json morphy form pos w = (Returns out, w')
    /\ list_ascii_of_string out
       = "{"%char
           :: Encoder.join
                Encoder.item_separator
                (map Encoder.encode_item
                     (map image A ++ (lit "null", py_list v2)
                          :: map image B ++ map image C))
           ++ ["}"%char]
    /\ (exists entries,
           json_loads out = Some (PDict entries)
           /\ (List.length entries < List.length result)%nat)
    /\ (plain_result result ->
        json_loads out
        = Some (as_pyval (map image A ++ (lit "null", py_list v2)
                              :: map image B ++ map image C))).
Proof.
  intros Hcall Hwf Hcol.
  destruct (has_null_collision_split Hcol)
    as (A & B & C & k1 & v1 & k2 & v2 & -> & Hk).
  pose proof (dict_comprehension_collision A B C v1 v2 Hwf Hk) as Hcomp.
  assert (Hlen : S (List.length
                      (dict_comprehension
                         (A ++ (k1, v1) :: B ++ (k2, v2) :: C)))
                 = List.length (A ++ (k1, v1) :: B ++ (k2, v2) :: C)).
  { rewrite Hcomp. rewrite !length_app. simpl. rewrite !length_app. simpl.
    rewrite !length_map. lia. }
  assert (Hk1 : key_expr k1 = lit "null")
    by (destruct Hk as [[-> _] | [-> _]]; reflexivity).
  assert (Hk2 : key_expr k2 = lit "null")
    by (destruct Hk as [[_ ->] | [_ ->]]; reflexivity).
  exists A, B, C, k1, v1, k2, v2.
  exists (json_dumps (dict_comprehension
                        (A ++ (k1, v1) :: B ++ (k2, v2) :: C))).
  split; [reflexivity |].
  split; [destruct Hk as [[-> ->] | [-> ->]]; discriminate |].
  split; [exact Hk1 |]. split; [exact Hk2 |]. split; [exact Hcomp |].
  split.
  { intros l Hl.
    eapply dict_wf_functional;
      [apply dict_comprehension_wf | exact Hl |].
    rewrite Hcomp. apply in_elt. }
  split.
  { apply dict_get_In; [apply dict_comprehension_wf |].
    rewrite Hcomp. apply in_elt. }
  split; [exact Hlen |].
  split; [exact (morphy_to_json_returns morphy form pos w Hcall) |].
  split.
  { unfold json_dumps. rewrite list_ascii_of_string_of_list_ascii, Hcomp.
    reflexivity. }
  split.
  { eexists. split; [apply loads_dumps |].
    pose proof (length_dict_of_pairs pystr_eq_dec
                  (map back_item
                       (dict_comprehension
                          (A ++ (k1, v1) :: B ++ (k2, v2) :: C)))) as Hle.
    rewrite length_map in Hle. lia. }
  intros Hplain. rewrite <- Hcomp. apply loads_dumps_plain.
  - apply dict_comprehension_wf.
  - apply Forall_forall. intros [s l] Hin.
    destruct (dict_comprehension_sound _ _ _ Hin) as (k & v & Hkv & -> & ->).
    unfold plain_result in Hplain. rewrite Forall_forall in Hplain.
    exact (Hplain (k, v) Hkv).
Qed.

Lemma collision_result_plain : plain_result collision_result.
Proof.
  unfold plain_result, collision_result, plain_str, valid_str.
  repeat (constructor; simpl); try reflexivity.
Qed.

Lemma null_key_collision_witness :
  dict_wf collision_result
  /\ has_null_collision collision_result
  /\ morphy_to_json (constant_lookup (E := unit) collision_result)
                    (lit "running") Omitted tt
     = (Returns collision_output, tt)
  /\ json_loads collision_output
     = Some (PDict [(lit "null", PList [PStr (lit "nil"); PStr (lit "void")]);
                    (lit "v", PList [PStr (lit "run")])]).
Proof.
  destruct (@null_key_collision unit unit (constant_lookup collision_result)
              (lit "running") Omitted tt tt collision_result eq_refl
              collision_result_wf collision_result_collides)
    as (A & B & C & k1 & v1 & k2 & v2 & out
        & Hsplit & _ & _ & _ & Hcomp & _ & _ & _ & Hout & _ & _ & Hread).
  split; [exact collision_result_wf |].
  split; [exact collision_result_collides |].
  assert (Hout' : out = collision_output)
    by (inversion Hout; reflexivity).
  subst out. split; [exact Hout |].
  rewrite (Hread collision_result_plain), <- Hcomp. reflexivity.
Defined.
(** * Further properties of the helper *)

(** ** The characters of the returned text *)

Section Printable.
Local Open Scope N_scope.

Lemma hexdigit_printable d : printable (Encoder.hexdigit d) = true.
Proof.
  unfold Encoder.hexdigit.
  remember (nth (N.to_nat d) (list_ascii_of_string "0123456789abcdef")
                "0"%char) as x eqn:Hx.
  assert (Hin : In x (list_ascii_of_string "0123456789abcdef")
                \/ x = "0"%char)
    by (subst x; destruct (nth_in_or_default (N.to_nat d)
          (list_ascii_of_string "0123456789abcdef") "0"%char); auto).
  clear Hx. destruct Hin as [Hin | ->]; [| reflexivity].
  simpl in Hin.
  repeat (destruct Hin as [<- | Hin]; [reflexivity |]). destruct Hin.
Qed.

Lemma u_escape_printable n : forallb printable (Encoder.u_escape n) = true.
Proof.
  unfold Encoder.u_escape, Encoder.format_04x. cbn [forallb].
  now rewrite !hexdigit_printable.
Qed.

Lemma sub_char_printable c : forallb printable (Encoder.sub_char c) = true.
Proof.
  unfold Encoder.sub_char.
  destruct (Encoder.ESCAPE_ASCII c) eqn:Hesc.
  - unfold Encoder.replace, Encoder.ESCAPE_DCT.
    repeat match goal with
           | |- context [if ?b then _ else _] => destruct b
           end;
      rewrite ?forallb_app, ?u_escape_printable; reflexivity.
  - unfold Encoder.ESCAPE_ASCII in Hesc.
    apply orb_false_elim in Hesc. destruct Hesc as [_ Hrange].
    apply negb_false_iff in Hrange. cbn [forallb]. unfold printable.
    apply andb_prop in Hrange. destruct Hrange as [Hlo Hhi].
    apply N.leb_le in Hlo, Hhi.
    rewrite N_ascii_embedding by lia.
    apply N.leb_le in Hlo, Hhi. now rewrite Hlo, Hhi.
Qed.

Lemma escape_printable s : forallb printable (Encoder.escape s) = true.
Proof.
  induction s as [| c s IH]; [reflexivity |].
  rewrite escape_cons, forallb_app, sub_char_printable. exact IH.
Qed.

Lemma encode_str_printable s :
  forallb printable (Encoder.py_encode_basestring_ascii s) = true.
Proof.
  unfold Encoder.py_encode_basestring_ascii. cbn [forallb].
  rewrite forallb_app, escape_printable. reflexivity.
Qed.

Lemma join_printable sep (parts : list text) :
  forallb printable sep = true ->
  Forall (fun p => forallb printable p = true) parts ->
  forallb printable (Encoder.join sep parts) = true.
Proof.
  intros Hsep. induction 1 as [| p parts Hp Hall IH]; [reflexivity |].
  destruct parts as [| q parts]; [exact Hp |].
  rewrite join_cons2, !forallb_app, Hp, Hsep. exact IH.
Qed.

Lemma encode_list_printable (l : list pystr) :
  forallb printable (Encoder.encode_list l) = true.
Proof.
  unfold Encoder.encode_list. cbn [forallb]. rewrite forallb_app.
  rewrite join_printable; [reflexivity | reflexivity |].
  apply Forall_forall. intros p Hp. apply in_map_iff in Hp.
  destruct Hp as (x & <- & _). apply encode_str_printable.
Qed.

Lemma encode_dict_printable (d : list (pystr * list pystr)) :
  forallb printable (Encoder.encode_dict d) = true.
Proof.
  unfold Encoder.encode_dict. cbn [forallb]. rewrite forallb_app.
  rewrite join_printable; [reflexivity | reflexivity |].
  apply Forall_forall. intros p Hp. apply in_map_iff in Hp.
  destruct Hp as (x & <- & _). unfold Encoder.encode_item.
  rewrite !forallb_app, encode_str_printable, encode_list_printable.
  reflexivity.
Qed.
End Printable.

(** X1.  Whatever strings the lookup hands out, the text the helper returns
    is made of printable ASCII characters only, from space to tilde: it
    holds no line break, no other control character and nothing outside
    ASCII. *)
Theorem output_printable_ascii W E (morphy : lookup W E) form pos (w w' : W)
        (out : string) :
  morphy_to_json morphy form pos w = (Returns out, w') ->
  forallb printable (list_ascii_of_string out) = true.
Proof.
  rewrite morphy_to_json_unfold.
  destruct (morphy form (with_default None pos) w) as [[result | e] w0];
    simpl; intros H; inversion H; subst.
  unfold json_dumps. rewrite list_ascii_of_string_of_list_ascii.
  apply encode_dict_printable.
Qed.

Lemma output_printable_ascii_witness :
  morphy_to_json (constant_lookup (E := unit) surrogate_result)
                 (lit "x") Omitted tt
  = (Returns ("{" ++ quoted "\ud83d\ude00" ++ ": []}")%string, tt)
  /\ forallb printable
             (list_ascii_of_string
                ("{" ++ quoted "\ud83d\ude00" ++ ": []}")%string) = true.
Proof.
  split; [reflexivity |].
  apply (@output_printable_ascii unit unit (constant_lookup surrogate_result)
           (lit "x") Omitted tt tt).
  reflexivity.
Defined.

(** ** What a consumer reads, for every mapping *)

(** X2.  For every mapping the lookup returns, [json.loads] accepts the text
    the helper returns and builds from it the dict of the pairs of the
    comprehension, each key and each member read as [read_back] tells, with
    a later pair taking the place of an earlier one that is read under the
    same key. *)
Theorem output_read_back W E (morphy : lookup W E) form pos (w w' : W)
        (result : lookup_result) :
  morphy form (with_default None pos) w = (Returns result, w') ->
  exists out,
    morphy_to_json morphy form pos w = (Returns out, w')
    /\ json_loads out
       = Some (PDict (dict_of_pairs pystr_eq_dec
                        (map back_item (dict_comprehension result)))).
Proof.
  intros Hcall. eexists.
  split; [exact (morphy_to_json_returns morphy form pos w Hcall) |].
  apply loads_dumps.
Qed.

Lemma output_read_back_witness :
  constant_lookup (E := unit) surrogate_result (lit "x") None tt
  = (Returns surrogate_result, tt)
  /\ exists out,
       morphy_to_json (constant_lookup (E := unit) surrogate_result)
                      (lit "x") Omitted tt = (Returns out, tt)
       /\ json_loads out = Some (PDict [([0x1f600%N], PList [])]).
Proof.
  split; [reflexivity |].
  apply (@output_read_back unit unit (constant_lookup surrogate_result)
           (lit "x") Omitted tt tt surrogate_result eq_refl).
Defined.

(** ** The empty object *)

Lemma dict_comprehension_nil items :
  dict_comprehension items = [] -> items = [].
Proof.
  destruct items as [| [k v] items]; [reflexivity |]. intros Hnil.
  pose proof (@dict_comprehension_keys_complete ((k, v) :: items) k
                (or_introl eq_refl)) as Hin.
  rewrite Hnil in Hin. destruct Hin.
Qed.

Lemma json_dumps_empty (d : list (pystr * list pystr)) :
  json_dumps d = "{}"%string -> d = [].
Proof.
  unfold json_dumps. intros H.
  apply (f_equal list_ascii_of_string) in H.
  rewrite list_ascii_of_string_of_list_ascii in H.
  destruct d as [| [k l] d]; [reflexivity |].
  destruct d; discriminate H.
Qed.

(** X3.  When the lookup returns a mapping, the helper returns the text of
    the empty object exactly when that mapping is empty: no other mapping is
    serialized to these two characters. *)
Theorem empty_output_iff W E (morphy : lookup W E) form pos (w w' : W)
        (result : lookup_result) :
  morphy form (with_default None pos) w = (Returns result, w') ->
  (morphy_to_json morphy form pos w = (Returns "{}"%string, w')
   <-> result = []).
Proof.
  intros Hcall. rewrite (morphy_to_json_returns morphy form pos w Hcall).
  split.
  - intros H. apply dict_comprehension_nil, json_dumps_empty.
    congruence.
  - intros ->. reflexivity.
Qed.

Lemma empty_output_iff_witness :
  constant_lookup (E := unit) running_result (lit "running") None tt
  = (Returns running_result, tt)
  /\ morphy_to_json (constant_lookup (E := unit) running_result)
                    (lit "running") Omitted tt
     <> (Returns "{}"%string, tt).
Proof.
  split; [reflexivity |]. intros H.
  apply (proj1 (@empty_output_iff unit unit (constant_lookup running_result)
                  (lit "running") Omitted tt tt running_result eq_refl))
    in H.
  discriminate H.
Defined.

(** ** The number of entries *)

(** X4.  The mapping the helper serializes never has more entries than the
    mapping the lookup returned, and it has as many exactly when the
    lookup's mapping does not hold both the key [None] and the key null. *)
Theorem entry_count W E (morphy : lookup W E) form pos (w w' : W)
        (result : lookup_result) :
  morphy form (with_default None pos) w = (Returns result, w') ->
  dict_wf result ->
  morphy_to_json morphy form pos w
  = (Returns (json_dumps (dict_comprehension result)), w')
  /\ (List.length (dict_comprehension result) <= List.length result)%nat
  /\ (List.length (dict_comprehension result) = List.length result
      <-> ~ has_null_collision result).
Proof.
  intros Hcall Hwf.
  split; [exact (morphy_to_json_returns morphy form pos w Hcall) |].
  assert (Hdec : has_null_collision result \/ ~ has_null_collision result).
  { unfold has_null_collision.
    destruct (in_dec pos_key_eq_dec None (keys result));
      destruct (in_dec pos_key_eq_dec (Some (lit "null")) (keys result));
      tauto. }
  destruct Hdec as [Hcol | Hcol].
  - destruct (has_null_collision_split Hcol)
      as (A & B & C & k1 & v1 & k2 & v2 & -> & Hk).
    rewrite (dict_comprehension_collision A B C v1 v2 Hwf Hk).
    rewrite !length_app. simpl. rewrite !length_app. simpl.
    rewrite !length_map. split; [lia |]. split; [lia | tauto].
  - rewrite dict_comprehension_injective
      by (apply key_expr_NoDup; assumption).
    rewrite length_map. split; [lia | tauto].
Qed.

Lemma entry_count_witness :
  dict_wf collision_result
  /\ (List.length (dict_comprehension collision_result)
      <= List.length collision_result)%nat
  /\ List.length (dict_comprehension collision_result)
     <> List.length collision_result.
Proof.
  destruct (@entry_count unit unit (constant_lookup collision_result)
              (lit "running") Omitted tt tt collision_result eq_refl
              collision_result_wf) as (_ & Hle & Hiff).
  split; [exact collision_result_wf |]. split; [exact Hle |].
  intros Heq. exact (proj1 Hiff Heq collision_result_collides).
Defined.

(** ** Different mappings, different texts *)

Lemma map_PStr_inj (l l' : list pystr) : map PStr l = map PStr l' -> l = l'.
Proof.
  revert l'. induction l as [| x l IH]; intros [| y l'] H;
    try discriminate; [reflexivity |].
  simpl in H. injection H as Hx Hl. subst. f_equal. now apply IH.
Qed.

Lemma as_pyval_inj (d d' : dict pystr (list pystr)) :
  as_pyval d = as_pyval d' -> d = d'.
Proof.
  unfold as_pyval. intros H. injection H as H.
  revert d' H. induction d as [| [k l] d IH]; intros [| [k' l'] d'] H;
    try discriminate; [reflexivity |].
  simpl in H. injection H as Hk Hl Hd. subst.
  apply map_PStr_inj in Hl. subst. f_equal. now apply IH.
Qed.

(** X5.  Nothing is lost in the text: when two mappings returned by lookups
    hold no clash of [None] with null and no adjacent surrogates, and the
    helper returns the same text for both, then the two mappings have the
    same keys in the same order (null standing for [None]) with the same
    lists of members. *)
Theorem same_output_same_mapping W E (morphy1 morphy2 : lookup W E)
        form1 pos1 form2 pos2 (w1 w1' w2 w2' : W)
        (result1 result2 : lookup_result) :
  morphy1 form1 (with_default None pos1) w1 = (Returns result1, w1') ->
  morphy2 form2 (with_default None pos2) w2 = (Returns result2, w2') ->
  dict_wf result1 -> ~ has_null_collision result1 -> plain_result result1 ->
  dict_wf result2 -> ~ has_null_collision result2 -> plain_result result2 ->
  fst (morphy_to_json morphy1 form1 pos1 w1)
  = fst (morphy_to_json morphy2 form2 pos2 w2) ->
  map image result1 = map image result2.
Proof.
  intros Hc1 Hc2 Hwf1 Hcol1 Hp1 Hwf2 Hcol2 Hp2.
  rewrite (morphy_to_json_returns morphy1 form1 pos1 w1 Hc1).
  rewrite (morphy_to_json_returns morphy2 form2 pos2 w2 Hc2).
  cbn [fst]. intros Hout.
  assert (Hsame : json_dumps (dict_comprehension result1)
                  = json_dumps (dict_comprehension result2))
    by congruence.
  clear Hout. apply (f_equal json_loads) in Hsame.
  assert (Hread : forall result,
             dict_wf result -> ~ has_null_collision result ->
             plain_result result ->
             json_loads (json_dumps (dict_comprehension result))
             = Some (as_pyval (map image result))).
  { intros result Hwf Hcol Hplain.
    assert (Hnd : NoDup (map key_expr (keys result)))
      by (apply key_expr_NoDup; assumption).
    rewrite (dict_comprehension_injective _ Hnd).
    apply loads_dumps_plain.
    - unfold dict_wf. now rewrite keys_image.
    - apply Forall_forall. intros kv Hkv. apply in_map_iff in Hkv.
      destruct Hkv as (x & <- & Hx). unfold plain_result in Hplain.
      rewrite Forall_forall in Hplain. exact (Hplain x Hx). }
  rewrite (Hread _ Hwf1 Hcol1 Hp1), (Hread _ Hwf2 Hcol2 Hp2) in Hsame.
  apply as_pyval_inj. congruence.
Qed.

Lemma running_result_mixed_wf : dict_wf running_result_mixed.
Proof.
  unfold dict_wf. simpl. repeat constructor; simpl; intuition discriminate.
Qed.

Lemma running_result_mixed_plain : plain_result running_result_mixed.
Proof.
  unfold plain_result, running_result_mixed, plain_str, valid_str.
  repeat (constructor; simpl); try reflexivity.
Qed.

Lemma running_result_mixed_no_collision :
  ~ has_null_collision running_result_mixed.
Proof. intros [_ H]. simpl in H. intuition discriminate. Qed.

Lemma same_output_same_mapping_witness :
  fst (morphy_to_json (constant_lookup (E := unit) running_result)
                      (lit "running") Omitted tt)
  = fst (morphy_to_json (constant_lookup (E := unit) running_result_mixed)
                        (lit "running") (Passed None) tt)
  /\ map image running_result = map image running_result_mixed.
Proof.
  split; [reflexivity |].
  apply (@same_output_same_mapping unit unit
           (constant_lookup running_result)
           (constant_lookup running_result_mixed)
           (lit "running") Omitted (lit "running") (Passed None)
           tt tt tt tt running_result running_result_mixed
           eq_refl eq_refl
           running_result_wf running_result_no_collision
           running_result_plain
           running_result_mixed_wf running_result_mixed_no_collision
           running_result_mixed_plain eq_refl).
Defined.

(** ** Nothing invented, nothing dropped without a clash *)

Lemma dict_of_pairs_keys_complete K V
      (K_eq_dec : forall x y : K, {x = y} + {x <> y})
      (pairs : list (K * V)) k :
  In k (keys pairs) -> In k (keys (dict_of_pairs K_eq_dec pairs)).
Proof.
  induction pairs as [| kv pairs IH] using rev_ind; [intros [] |].
  unfold keys at 1. rewrite map_app, in_app_iff. simpl.
  unfold dict_of_pairs. rewrite fold_left_app. simpl.
  fold (dict_of_pairs K_eq_dec pairs). rewrite keys_dict_set. intros Hin.
  destruct (in_dec K_eq_dec (fst kv) (keys (dict_of_pairs K_eq_dec pairs)))
    as [Hk | Hk].
  - destruct Hin as [Hin | [<- | []]]; [now apply IH | exact Hk].
  - rewrite in_app_iff. destruct Hin as [Hin | [<- | []]];
      [left; now apply IH | right; now left].
Qed.

(** X6.  For every mapping the lookup returns, the object a consumer reads
    from the returned text holds, for each key of the mapping, the key as it
    is read back, and holds nothing else: each of its entries is the key and
    the list of members, as read back, of an entry of the mapping. *)
Theorem consumer_entries W E (morphy : lookup W E) form pos (w w' : W)
        (result : lookup_result) :
  morphy form (with_default None pos) w = (Returns result, w') ->
  exists out entries,
    morphy_to_json morphy form pos w = (Returns out, w')
    /\ json_loads out = Some (PDict entries)
    /\ (forall k, In k (keys result) ->
                  In (read_back (key_expr k)) (keys entries))
    /\ (forall s v, In (s, v) entries ->
                    exists k c, In (k, c) result
                                /\ s = read_back (key_expr k)
                                /\ v = back_list (py_list c)).
Proof.
  intros Hcall. do 2 eexists.
  split; [exact (morphy_to_json_returns morphy form pos w Hcall) |].
  split; [apply loads_dumps |]. split.
  - intros k Hk. apply dict_of_pairs_keys_complete.
    apply dict_comprehension_keys_complete in Hk.
    unfold keys in *. rewrite map_map. simpl.
    apply in_map_iff in Hk. destruct Hk as ([s l] & Hs & Hin).
    simpl in Hs. subst s. apply in_map_iff. now exists (key_expr k, l).
  - intros s v Hin. apply in_fold_dict_set in Hin.
    destruct Hin as [[] | Hin]. apply in_map_iff in Hin.
    destruct Hin as ([s0 l0] & Heq & Hin). inversion Heq; subst.
    destruct (dict_comprehension_sound _ _ _ Hin) as (k & c & Hkc & -> & ->).
    now exists k, c.
Qed.

Lemma consumer_entries_witness :
  constant_lookup (E := unit) collision_result (lit "running") None tt
  = (Returns collision_result, tt)
  /\ exists out entries,
       morphy_to_json (constant_lookup (E := unit) collision_result)
                      (lit "running") Omitted tt = (Returns out, tt)
       /\ json_loads out = Some (PDict entries)
       /\ In (lit "null") (keys entries)
       /\ In (lit "v") (keys entries).
Proof.
  split; [reflexivity |].
  destruct (@consumer_entries unit unit (constant_lookup collision_result)
              (lit "running") Omitted tt tt collision_result eq_refl)
    as (out & entries & Hout & Hload & Hkeys & _).
  exists out, entries. split; [exact Hout |]. split; [exact Hload |].
  split.
  - apply (Hkeys None). simpl. auto.
  - apply (Hkeys (Some (lit "v"))). simpl. auto.
Defined.
